(** * SurrealSocket: a shallow embedding of src/library/SurrealSocket.ts

    The class is an event-driven WebSocket RPC client.  Its fields become a
    record, its methods and the four transport listeners installed by
    [open()] become state transformers, and every JavaScript suspension
    point ([await]) becomes an explicit suspended task that a later
    scheduler step resumes once the awaited promise has settled.

    What lies outside the class is kept opaque:
    - user callbacks and status hooks are names; invoking one is recorded
      in the trace of observable effects, in program order, and it
      returns without throwing and without calling back into the object;
    - the transport is a handle; [new WebSocket], [ws.send], [ws.close]
      are recorded in the same trace, and its four events are inputs,
      which any transport ever created may raise at any time;
    - [JSON.parse]/[JSON.stringify] are the identity on a datatype of JSON
      values (numbers restricted to integers, object keys distinct); a
      payload that does not parse makes the message listener throw before
      it reads the object, and is no event of the model;
    - [getIncrementalID] (./getIncrementalID.ts) is a parameter.

    The three objects used as dictionaries are finite maps from property
    keys: only own properties are modelled (no key is taken to collide
    with a name inherited from [Object.prototype]), and the order in which
    [Object.values] enumerates them is left unspecified.  Time is not
    modelled: a timer may fire, and a runnable task may resume, at any
    later step.

    The file ends with the [surrealql] template tag of the query builder,
    a pure function from the template's segments and values to the text
    and the bindings it hands to [PreparedQuery]. *)

From stdpp Require Import base gmap strings list fin_maps pretty.
From Stdlib Require Import ZArith Lia.

#[local] Set Warnings "-register-all".
Local Open Scope string_scope.
Local Open Scope list_scope.
Local Open Scope Z_scope.

(** ** JSON values and the JavaScript operators applied to them *)

Inductive json : Type :=
  | JNull
  | JBool (b : bool)
  | JNum (n : Z)
  | JStr (s : string)
  | JArr (l : list json)
  | JObj (fields : list (string * json)).

(** [!!v] : the values JavaScript treats as false. *)
Definition truthy (v : json) : bool :=
  match v with
  | JNull => false
  | JBool b => b
  | JNum n => negb (n =? 0)
  | JStr s => negb (String.eqb s "")
  | JArr _ | JObj _ => true
  end.

(** ToPropertyKey: the string under which [obj[v]] and [v in obj] look. *)
Fixpoint to_key (v : json) : string :=
  match v with
  | JNull => "null"
  | JBool true => "true"
  | JBool false => "false"
  | JNum n => pretty n
  | JStr s => s
  | JArr l =>
      (fix join (l : list json) : string :=
         match l with
         | [] => ""
         | x :: r =>
             let e := match x with JNull => "" | _ => to_key x end in
             match r with [] => e | _ => e +:+ "," +:+ join r end
         end) l
  | JObj _ => "[object Object]"
  end.

(** [obj.k] on a parsed object: the value of field [k], if present. *)
Fixpoint get_field (k : string) (fs : list (string * json)) : option json :=
  match fs with
  | [] => None
  | (k', v) :: r => if String.eqb k k' then Some v else get_field k r
  end.

(** [k in obj] on a parsed object. *)
Definition has_field (k : string) (fs : list (string * json)) : bool :=
  match get_field k fs with Some _ => true | None => false end.

(** The rest pattern [{ id: _, ...message }]: every field but [k]. *)
Definition without_field (k : string) (fs : list (string * json))
  : list (string * json) :=
  filter (λ kv, negb (String.eqb k (fst kv))) fs.

(** [typeof v === "object" && v !== null] *)
Definition is_nonnull_object (v : json) : bool :=
  match v with JObj _ | JArr _ => true | _ => false end.

(** The fields of a value as the [in] operator sees them.  An array has
    index and [length] keys only, none of which the class asks for. *)
Definition fields_of (v : json) : list (string * json) :=
  match v with JObj fs => fs | _ => [] end.

(** ** Data model *)

Inductive WebsocketStatus : Type := OPEN | CLOSED | RECONNECTING.

#[global] Instance WebsocketStatus_eq_dec : EqDecision WebsocketStatus.
Proof. solve_decision. Defined.

(** The optional hooks given to the constructor: [true] when supplied. *)
Record StatusHooks : Type := mkHooks {
  onConnect : bool;
  onClose : bool;
  onError : bool;
}.

Inductive Hook : Type := HConnect | HClose | HError.

(** Names of user callbacks, promises and transport handles. *)
Abbreviation callback := nat (only parsing).
Abbreviation promise_id := nat (only parsing).
Abbreviation ws_id := nat (only parsing).

Inductive promise : Type :=
  | Pending
  | Fulfilled (v : option json)   (* [None] is [undefined] *)
  | Rejected.

(** Observable effects, in program order. *)
Inductive Effect : Type :=
  | CallbackInvoked (cb : callback) (data : json)
  | HookInvoked (h : Hook)
  | WsCreated (w : ws_id)
  | WsSent (w : ws_id) (frame : json)
  | WsCloseRequested (w : ws_id) (code : Z) (reason : option string)
  | TimeoutSet (delay : Z).

(** What an [open()] call closes over: its [resolved] flag and the
    [resolve]/[reject] pair of the promise it stored in [this.ready]. *)
Record Attempt : Type := mkAttempt {
  resolved : bool;
  attempt_ready : promise_id;
}.

(** An async method suspended at its [await]; the last component is
    the promise the method returned to its caller. *)
Inductive Task : Type :=
  | TSend (awaiting : option promise_id) (method : string)
      (params : list json) (ret : promise_id)
  | TListen (queryUuid : string) (ret : promise_id)
  | TKill (awaiting : promise_id) (queryUuid : string) (ret : promise_id)
  | TClose (awaiting : promise_id) (ret : promise_id).

Record State : Type := mkState {
  (* fields of the class *)
  status : WebsocketStatus;
  ws : option ws_id;
  queue : gmap string promise_id;
  liveQueue : gmap string (list callback);
  unprocessedLiveResponses : gmap string (list json);
  ready : option promise_id;
  closed : option promise_id;
  resolveClosed : option promise_id;
  hooks : StatusHooks;
  (* the runtime around it *)
  promises : list promise;
  attempts : list Attempt;       (* indexed by transport handle *)
  tasks : list Task;
  timers : list Z;               (* pending [setTimeout(open, delay)] *)
  id_calls : nat;                (* calls made to [getIncrementalID] *)
  out : list Effect;
}.

Definition socketClosureReason (code : Z) : option string :=
  if code =? 1000 then Some "CLOSE_NORMAL" else None.

(** The object right after the constructor ran. *)
Definition init (h : StatusHooks) : State :=
  {| status := CLOSED; ws := None; queue := ∅; liveQueue := ∅;
     unprocessedLiveResponses := ∅; ready := None; closed := None;
     resolveClosed := None; hooks := h; promises := []; attempts := [];
     tasks := []; timers := []; id_calls := 0%nat; out := [] |}.

(** Field updates. *)
Definition set_status (x : WebsocketStatus) (s : State) : State :=
  mkState x (ws s) (queue s) (liveQueue s) (unprocessedLiveResponses s)
    (ready s) (closed s) (resolveClosed s) (hooks s) (promises s)
    (attempts s) (tasks s) (timers s) (id_calls s) (out s).
Definition set_ws (x : option ws_id) (s : State) : State :=
  mkState (status s) x (queue s) (liveQueue s) (unprocessedLiveResponses s)
    (ready s) (closed s) (resolveClosed s) (hooks s) (promises s)
    (attempts s) (tasks s) (timers s) (id_calls s) (out s).
Definition set_queue (x : gmap string promise_id) (s : State) : State :=
  mkState (status s) (ws s) x (liveQueue s) (unprocessedLiveResponses s)
    (ready s) (closed s) (resolveClosed s) (hooks s) (promises s)
    (attempts s) (tasks s) (timers s) (id_calls s) (out s).
Definition set_liveQueue (x : gmap string (list callback)) (s : State)
  : State :=
  mkState (status s) (ws s) (queue s) x (unprocessedLiveResponses s)
    (ready s) (closed s) (resolveClosed s) (hooks s) (promises s)
    (attempts s) (tasks s) (timers s) (id_calls s) (out s).
Definition set_unprocessedLiveResponses (x : gmap string (list json))
  (s : State) : State :=
  mkState (status s) (ws s) (queue s) (liveQueue s) x
    (ready s) (closed s) (resolveClosed s) (hooks s) (promises s)
    (attempts s) (tasks s) (timers s) (id_calls s) (out s).
Definition set_ready (x : option promise_id) (s : State) : State :=
  mkState (status s) (ws s) (queue s) (liveQueue s)
    (unprocessedLiveResponses s) x (closed s) (resolveClosed s) (hooks s)
    (promises s) (attempts s) (tasks s) (timers s) (id_calls s) (out s).
Definition set_closed (x : option promise_id) (s : State) : State :=
  mkState (status s) (ws s) (queue s) (liveQueue s)
    (unprocessedLiveResponses s) (ready s) x (resolveClosed s) (hooks s)
    (promises s) (attempts s) (tasks s) (timers s) (id_calls s) (out s).
Definition set_resolveClosed (x : option promise_id) (s : State) : State :=
  mkState (status s) (ws s) (queue s) (liveQueue s)
    (unprocessedLiveResponses s) (ready s) (closed s) x (hooks s)
    (promises s) (attempts s) (tasks s) (timers s) (id_calls s) (out s).
Definition set_promises (x : list promise) (s : State) : State :=
  mkState (status s) (ws s) (queue s) (liveQueue s)
    (unprocessedLiveResponses s) (ready s) (closed s) (resolveClosed s)
    (hooks s) x (attempts s) (tasks s) (timers s) (id_calls s) (out s).
Definition set_attempts (x : list Attempt) (s : State) : State :=
  mkState (status s) (ws s) (queue s) (liveQueue s)
    (unprocessedLiveResponses s) (ready s) (closed s) (resolveClosed s)
    (hooks s) (promises s) x (tasks s) (timers s) (id_calls s) (out s).
Definition set_tasks (x : list Task) (s : State) : State :=
  mkState (status s) (ws s) (queue s) (liveQueue s)
    (unprocessedLiveResponses s) (ready s) (closed s) (resolveClosed s)
    (hooks s) (promises s) (attempts s) x (timers s) (id_calls s) (out s).
Definition set_timers (x : list Z) (s : State) : State :=
  mkState (status s) (ws s) (queue s) (liveQueue s)
    (unprocessedLiveResponses s) (ready s) (closed s) (resolveClosed s)
    (hooks s) (promises s) (attempts s) (tasks s) x (id_calls s) (out s).
Definition set_id_calls (x : nat) (s : State) : State :=
  mkState (status s) (ws s) (queue s) (liveQueue s)
    (unprocessedLiveResponses s) (ready s) (closed s) (resolveClosed s)
    (hooks s) (promises s) (attempts s) (tasks s) (timers s) x (out s).
Definition set_out (x : list Effect) (s : State) : State :=
  mkState (status s) (ws s) (queue s) (liveQueue s)
    (unprocessedLiveResponses s) (ready s) (closed s) (resolveClosed s)
    (hooks s) (promises s) (attempts s) (tasks s) (timers s) (id_calls s) x.

(** ** The runtime: effects, promises, suspended tasks *)

Definition emit_all (es : list Effect) (s : State) : State :=
  set_out (out s ++ es) s.

Definition emit (e : Effect) (s : State) : State := emit_all [e] s.

(** [this.hooks.h?.()] *)
Definition call_hook (present : bool) (h : Hook) (s : State) : State :=
  emit_all (if present then [HookInvoked h] else []) s.

(** [this.ws?.m(...)]: nothing happens without a transport. *)
Definition ws_call (m : ws_id → Effect) (s : State) : State :=
  emit_all (match ws s with Some w => [m w] | None => [] end) s.

(** [new Promise(...)]: a fresh pending promise. *)
Definition new_promise (s : State) : promise_id * State :=
  (length (promises s), set_promises (promises s ++ [Pending]) s).

(** [resolve(v)] / [reject(e)]: only a pending promise changes. *)
Definition settle_in (p : promise_id) (v : promise) (ps : list promise)
  : list promise :=
  match ps !! p with
  | Some Pending => <[p := v]> ps
  | _ => ps
  end.

Definition settle (p : promise_id) (v : promise) (s : State) : State :=
  set_promises (settle_in p v (promises s)) s.

Definition settled (s : State) (p : promise_id) : bool :=
  match promises s !! p with
  | Some (Fulfilled _) | Some Rejected => true
  | _ => false
  end.

Definition rejected (s : State) (p : promise_id) : bool :=
  match promises s !! p with Some Rejected => true | _ => false end.

(** An async method reaches its [await]: the rest of its body is parked
    together with the promise it hands back to the caller. *)
Definition suspend (k : promise_id → Task) (s : State)
  : promise_id * State :=
  let '(r, s) := new_promise s in
  (r, set_tasks (tasks s ++ [k r]) s).

(** The terminal events handed to live-query listeners. *)
Definition SOCKET_CLOSED : json :=
  JObj [("action", JStr "CLOSE"); ("detail", JStr "SOCKET_CLOSED")].
Definition QUERY_KILLED : json :=
  JObj [("action", JStr "CLOSE"); ("detail", JStr "QUERY_KILLED")].

(** [cbs.map(cb => cb(data))] *)
Definition notify_all (cbs : list callback) (data : json) : list Effect :=
  map (λ cb, CallbackInvoked cb data) cbs.

(** [buffered.map(cb)] *)
Definition replay (cb : callback) (buffered : list json) : list Effect :=
  map (λ data, CallbackInvoked cb data) buffered.

(** ** Methods of the class *)

(** [static isLiveNotification(message)].  [None] is the TypeError that
    [in] raises on a primitive. *)
Definition isLiveNotification (message : json) : option bool :=
  match message with
  | JObj _ | JArr _ =>
      let m := fields_of message in
      Some (negb (has_field "id" m) &&
            has_field "result" m &&
            match get_field "result" m with
            | Some result =>
                is_nonnull_object result &&
                has_field "action" (fields_of result) &&
                has_field "id" (fields_of result) &&
                has_field "result" (fields_of result)
            | None => false
            end)
  | _ => None
  end.

(** [close(reason)] up to its [await this.closed]. *)
Definition close (reason : Z) (s : State) : promise_id * State :=
  let s := set_status CLOSED s in
  let '(p, s) := new_promise s in
  let s := set_resolveClosed (Some p) (set_closed (Some p) s) in
  let s := ws_call
             (λ w, WsCloseRequested w reason (socketClosureReason reason)) s in
  let s := call_hook (onClose (hooks s)) HClose s in
  suspend (TClose p) s.

(** [open()]: the nested [close(1000)] is not awaited. *)
Definition open (s : State) : promise_id * State :=
  let '(_, s) := close 1000 s in
  let w := length (attempts s) in
  let s := emit (WsCreated w) s in
  let '(p, s) := new_promise s in
  let s := set_ready (Some p) s in
  let s := set_attempts (attempts s ++ [mkAttempt false p]) s in
  (p, set_ws (Some w) s).

(** [send(method, params)] up to its [await this.ready]. *)
Definition send (method : string) (params : list json) (s : State)
  : promise_id * State :=
  suspend (TSend (ready s) method params) s.

(** The listeners of a live query, and what is buffered for it. *)
Definition listeners (s : State) (queryUuid : string) : list callback :=
  default [] (liveQueue s !! queryUuid).

Definition buffered (s : State) (queryUuid : string) : list json :=
  default [] (unprocessedLiveResponses s !! queryUuid).

(** [listenLive(queryUuid, callback)] up to its [await Promise.all]. *)
Definition listenLive (queryUuid : string) (cb : callback) (s : State)
  : promise_id * State :=
  let s := set_liveQueue
             (match liveQueue s !! queryUuid with
              | Some _ => liveQueue s
              | None => <[queryUuid := []]> (liveQueue s)
              end) s in
  let s := set_liveQueue
             (<[queryUuid := listeners s queryUuid ++ [cb]]> (liveQueue s))
             s in
  let s := emit_all
             (match unprocessedLiveResponses s !! queryUuid with
              | Some responses => replay cb responses
              | None => []
              end) s in
  suspend (TListen queryUuid) s.

(** [kill(queryUuid)] up to its [await this.send(...)]. *)
Definition kill (queryUuid : string) (s : State) : promise_id * State :=
  let s := match liveQueue s !! queryUuid with
           | Some cbs =>
               set_liveQueue (delete queryUuid (liveQueue s))
                 (emit_all (notify_all cbs QUERY_KILLED) s)
           | None => s
           end in
  let '(r, s) := send "kill" [JStr queryUuid] s in
  suspend (TKill r queryUuid) s.

(** [handleLiveBatch({ id: queryUuid, ...message })].  Every listener is
    called before the method first suspends, and nothing follows its
    [await], so no task is parked. *)
Definition handleLiveBatch (result : list (string * json)) (s : State)
  : State :=
  let queryUuid := match get_field "id" result with
                   | Some v => to_key v
                   | None => "undefined"
                   end in
  let message := JObj (without_field "id" result) in
  match liveQueue s !! queryUuid with
  | Some cbs => emit_all (notify_all cbs message) s
  | None =>
      let s := set_unprocessedLiveResponses
                 (match unprocessedLiveResponses s !! queryUuid with
                  | Some _ => unprocessedLiveResponses s
                  | None => <[queryUuid := []]> (unprocessedLiveResponses s)
                  end) s in
      set_unprocessedLiveResponses
        (<[queryUuid := buffered s queryUuid ++ [message]]>
           (unprocessedLiveResponses s)) s
  end.

(** ** The listeners [open()] installs on transport [w] *)

(** [resolved = true] in the closure of attempt [w]. *)
Definition mark_resolved (w : ws_id) (a : Attempt) (s : State) : State :=
  set_attempts (<[w := mkAttempt true (attempt_ready a)]> (attempts s)) s.

Definition on_open (w : ws_id) (a : Attempt) (s : State) : State :=
  let s := set_status OPEN s in
  let s := if resolved a then s
           else settle (attempt_ready a) (Fulfilled None)
                  (mark_resolved w a s) in
  call_hook (onConnect (hooks s)) HConnect s.

Definition on_error (w : ws_id) (a : Attempt) (s : State) : State :=
  let s := set_status CLOSED s in
  if resolved a then s
  else
    let s := mark_resolved w a s in
    let s := settle (attempt_ready a) Rejected s in
    call_hook (onError (hooks s)) HError s.

(** The reconnection delay handed to [setTimeout]. *)
Definition RECONNECT_DELAY : Z := 2500.

(** [Object.values(this.liveQueue)] and the nested [map]s over it. *)
Definition all_listeners (s : State) : list callback :=
  concat (map snd (map_to_list (liveQueue s))).

Definition on_close (s : State) : State :=
  let s := match resolveClosed s with
           | Some p => settle p (Fulfilled None) s
           | None => s
           end in
  let s := emit_all (notify_all (all_listeners s) SOCKET_CLOSED) s in
  let s := set_queue ∅ s in
  let s := set_liveQueue ∅ s in
  let s := set_unprocessedLiveResponses ∅ s in
  if decide (status s = CLOSED) then s
  else
    let s := set_status RECONNECTING s in
    let s := emit (TimeoutSet RECONNECT_DELAY)
               (set_timers (timers s ++ [RECONNECT_DELAY]) s) in
    call_hook (onClose (hooks s)) HClose s.

(** The message listener; [None] when [isLiveNotification] throws. *)
Definition on_message (res : json) (s : State) : option State :=
  match isLiveNotification res with
  | None => None
  | Some true =>
      Some (handleLiveBatch
              (fields_of (default JNull (get_field "result" (fields_of res))))
              s)
  | Some false =>
      match get_field "id" (fields_of res) with
      | Some id =>
          if truthy id then
            match queue s !! to_key id with
            | Some r =>
                Some (set_queue (delete (to_key id) (queue s))
                        (settle r (Fulfilled (Some res)) s))
            | None => Some s
            end
          else Some s
      | None => Some s
      end
  end.

(** ** Scheduling *)

(** Everything that can happen to the object. *)
Inductive Event : Type :=
  | CallOpen
  | CallClose (reason : Z)
  | CallSend (method : string) (params : list json)
  | CallListenLive (queryUuid : string) (cb : callback)
  | CallKill (queryUuid : string)
  | WsOpen (w : ws_id)
  | WsError (w : ws_id)
  | WsClose (w : ws_id)
  | WsMessage (w : ws_id) (data : json)
  | TimerFires (i : nat)
  | Resume (i : nat).

(** An awaited promise lets its task run once settled; awaiting
    [undefined] does not wait.  What [listenLive] awaits are the values
    its callback returned, which settle outside the class. *)
Definition runnable (s : State) (t : Task) : bool :=
  match t with
  | TSend None _ _ _ => true
  | TSend (Some p) _ _ _ => settled s p
  | TListen _ _ => true
  | TKill p _ _ => settled s p
  | TClose p _ => settled s p
  end.

Definition task_ret (t : Task) : promise_id :=
  match t with
  | TSend _ _ _ r | TListen _ r | TKill _ _ r | TClose _ r => r
  end.

(** What is left of [listenLive] after its [await]. *)
Definition listenLive_resume (queryUuid : string) (ret : promise_id)
  (s : State) : State :=
  let s := set_unprocessedLiveResponses
             (delete queryUuid (unprocessedLiveResponses s)) s in
  settle ret (Fulfilled None) s.

(** What is left of [kill] after [await this.send(...)]. *)
Definition kill_resume (queryUuid : string) (ret : promise_id)
  (s : State) : State :=
  let s := set_unprocessedLiveResponses
             (delete queryUuid (unprocessedLiveResponses s)) s in
  settle ret (Fulfilled None) s.

(** Two generators to run the model on examples: decimal numerals
    counted from zero, and from one. *)
Definition zero_based_ids (n : nat) : json := JStr (pretty n).
Definition decimal_ids (n : nat) : json := zero_based_ids (S n).

(** Hooks and frames used to run the model on examples. *)
Definition all_hooks : StatusHooks := mkHooks true true true.

Definition notification (queryUuid : string) (n : Z) : json :=
  JObj [("result",
         JObj [("id", JStr queryUuid); ("action", JStr "CREATE");
               ("result", JNum n)])].

Definition reply_to (id : json) : json :=
  JObj [("id", id); ("result", JStr "pong")].

(** ** The query builder: the [surrealql] template tag *)

(** [query_raw]: a plain string, or the segments of a template. *)
Inductive QueryRaw : Type :=
  | RawString (s : string)
  | RawSegments (segments : list string).

(** What [new PreparedQuery(query, bindings)] is handed. *)
Record PreparedQuery (V : Type) : Type := mkPreparedQuery {
  query : string;
  bindings : gmap string V;
}.
Arguments mkPreparedQuery {V} _ _.
Arguments query {V} _.
Arguments bindings {V} _.

(** [`__tagged_template_literal_binding__${i}`] *)
Definition binding_name (i : nat) : string :=
  "__tagged_template_literal_binding__" +:+ pretty i.

Definition surrealql {V : Type} (query_raw : QueryRaw) (values : list V)
  : PreparedQuery V :=
  let mapped_bindings := imap (λ i v, (binding_name i, v)) values in
  let bindings :=
    foldl (λ prev kv, <[fst kv := snd kv]> prev) ∅ mapped_bindings in
  let query :=
    match query_raw with
    | RawString s => s
    | RawSegments segments =>
        String.concat ""
          (concat
             (imap (λ i segment,
                      let variable := fst <$> mapped_bindings !! i in
                      segment
                        :: match variable with
                           | Some v =>
                               if String.eqb v "" then [] else ["$" +:+ v]
                           | None => []
                           end) segments))
    end in
  mkPreparedQuery query bindings.

(** The placeholder standing for the [i]-th value. *)
Definition placeholder (i : nat) : string := "$" +:+ binding_name i.

Section Scheduler.

(** The identifier [getIncrementalID()] returns on its [n]-th call. *)
Variable getIncrementalID : nat → json.

(** The frame [JSON.stringify({ id, method, params })]. *)
Definition request (id : json) (method : string) (params : list json)
  : json :=
  JObj [("id", id); ("method", JStr method); ("params", JArr params)].

(** What is left of [send] after [await this.ready]. *)
Definition send_resume (method : string) (params : list json)
  (ret : promise_id) (s : State) : State :=
  let id := getIncrementalID (id_calls s) in
  let s := set_id_calls (S (id_calls s)) s in
  let s := set_queue (<[to_key id := ret]> (queue s)) s in
  ws_call (λ w, WsSent w (request id method params)) s.

(** Run a task to its end.  A rejected awaited promise makes [await]
    throw, which rejects the promise the method returned. *)
Definition resume (t : Task) (s : State) : State :=
  match t with
  | TSend aw method params ret =>
      if from_option (rejected s) false aw then settle ret Rejected s
      else send_resume method params ret s
  | TListen queryUuid ret => listenLive_resume queryUuid ret s
  | TKill aw queryUuid ret =>
      if rejected s aw then settle ret Rejected s
      else kill_resume queryUuid ret s
  | TClose aw ret =>
      if rejected s aw then settle ret Rejected s
      else settle ret (Fulfilled None) s
  end.

(** One event.  [None]: the event cannot occur in this state (a handle
    that was never created, a timer that was never set, a task that is
    absent or still waiting).  A listener that throws leaves the object
    as it was. *)
Definition step (e : Event) (s : State) : option State :=
  match e with
  | CallOpen => Some (snd (open s))
  | CallClose reason => Some (snd (close reason s))
  | CallSend method params => Some (snd (send method params s))
  | CallListenLive queryUuid cb => Some (snd (listenLive queryUuid cb s))
  | CallKill queryUuid => Some (snd (kill queryUuid s))
  | WsOpen w => a ← attempts s !! w; Some (on_open w a s)
  | WsError w => a ← attempts s !! w; Some (on_error w a s)
  | WsClose w => _ ← attempts s !! w; Some (on_close s)
  | WsMessage w data =>
      _ ← attempts s !! w; Some (default s (on_message data s))
  | TimerFires i =>
      _ ← timers s !! i;
      Some (snd (open (set_timers (delete i (timers s)) s)))
  | Resume i =>
      t ← tasks s !! i;
      if runnable s t
      then Some (resume t (set_tasks (delete i (tasks s)) s))
      else None
  end.

Fixpoint run (es : list Event) (s : State) : option State :=
  match es with
  | [] => Some s
  | e :: es => s' ← step e s; run es s'
  end.

Definition reachable (s : State) : Prop :=
  ∃ h es, run es (init h) = Some s.

(** The state a fresh object is in after some events. *)
Definition session (es : list Event) : State :=
  default (init all_hooks) (run es (init all_hooks)).

(** ** Well-formed states *)

(** Every [resolve]/[reject] capability the object holds: the entries of
    [queue], the promises returned by suspended methods, the [ready]
    promises of the attempts, and [resolveClosed]. *)
Definition queue_rets (s : State) : list promise_id :=
  map snd (map_to_list (queue s)).

Definition resolvers (s : State) : list promise_id :=
  queue_rets s ++ map task_ret (tasks s)
    ++ map attempt_ready (attempts s) ++ option_list (resolveClosed s).

Record wf (s : State) : Prop := mkWf {
  wf_listeners : ∀ q l, liveQueue s !! q = Some l → l ≠ [];
  wf_alloc : ∀ p, p ∈ resolvers s → (p < length (promises s))%nat;
  wf_nodup : NoDup (resolvers s);
  wf_pending : ∀ p, p ∈ queue_rets s ++ map task_ret (tasks s) →
               promises s !! p = Some Pending;
  wf_attempts : ∀ w a, attempts s !! w = Some a →
                (resolved a = false ↔ promises s !! attempt_ready a = Some Pending);
  wf_keys : ∀ k r, queue s !! k = Some r →
            ∃ n, (n < id_calls s)%nat ∧ k = to_key (getIncrementalID n);
  wf_ws : ∀ w, ws s = Some w → is_Some (attempts s !! w);
  wf_unopened : attempts s = [] →
                ws s = None ∧ ready s = None ∧ timers s = [];
  wf_opened : ws s = None → attempts s = [];
}.

(** ** Vocabulary of the statements *)

(** The callback invocations among some effects, in order. *)
Definition callbacks_invoked (es : list Effect) : list (callback * json) :=
  omap (λ e, match e with
             | CallbackInvoked cb data => Some (cb, data)
             | _ => None
             end) es.

(** What the close listener emits once every listener has been told. *)
Definition reconnect_effects (s : State) : list Effect :=
  if decide (status s = CLOSED) then []
  else TimeoutSet RECONNECT_DELAY
         :: (if onClose (hooks s) then [HookInvoked HClose] else []).


(** A frame answers the request registered under key [k] when its
    top-level [id] is truthy and converts to [k]. *)
Definition answers (frame : json) (k : string) : Prop :=
  ∃ id, get_field "id" (fields_of frame) = Some id
        ∧ truthy id = true ∧ to_key id = k.


(** The subscription key and payload of a frame, if it is a push
    notification. *)
Definition as_notification (frame : json) : option (string * json) :=
  match isLiveNotification frame with
  | Some true =>
      let result :=
        fields_of (default JNull (get_field "result" (fields_of frame))) in
      Some (from_option to_key "undefined" (get_field "id" result),
            JObj (without_field "id" result))
  | _ => None
  end.


(** What the message listener does to a state, whether or not it throws. *)
Definition receive (frame : json) (s : State) : State :=
  default s (on_message frame s).


(** The effects a handler adds, read off its definition. *)
Definition close_effects (reason : Z) (s : State) : list Effect :=
  match ws s with
  | Some w => [WsCloseRequested w reason (socketClosureReason reason)]
  | None => []
  end ++ (if onClose (hooks s) then [HookInvoked HClose] else []).

(** The promise an event settles, if any. *)
Definition fires (e : Event) (s : State) (p : promise_id) : Prop :=
  match e with
  | WsOpen w | WsError w =>
      ∃ a, attempts s !! w = Some a ∧ attempt_ready a = p
  | WsClose w => is_Some (attempts s !! w) ∧ resolveClosed s = Some p
  | WsMessage w frame => ∃ k, answers frame k ∧ queue s !! k = Some p
  | Resume i => ∃ t, tasks s !! i = Some t ∧ task_ret t = p
  | _ => False
  end.

(** Holders among the parked tasks and the attempts. *)
Definition held_by_task_or_attempt (s : State) (p : promise_id) : Prop :=
  p ∈ map task_ret (tasks s) ++ map attempt_ready (attempts s).

(** The promise [p] can no longer be settled: it is pending, no entry,
    task or attempt holds its [resolve], and [resolveClosed] holds it
    only while no transport was ever created. *)
Definition stranded (p : promise_id) (s : State) : Prop :=
  promises s !! p = Some Pending
  ∧ (∀ k, queue s !! k ≠ Some p)
  ∧ ¬ held_by_task_or_attempt s p
  ∧ (resolveClosed s = Some p → attempts s = []).








(** The events that run [close]: a call of [close], and [open()], which
    starts with [this.close(1000)], called directly or by the reconnect
    timer. *)
Definition runs_close (e : Event) : bool :=
  match e with
  | CallOpen | CallClose _ | TimerFires _ => true
  | _ => false
  end.

(** The events that run [open()]. *)
Definition runs_open (e : Event) : bool :=
  match e with
  | CallOpen | TimerFires _ => true
  | _ => false
  end.

Definition timer_fires (e : Event) : bool :=
  match e with TimerFires _ => true | _ => false end.


(** What the connection fields satisfy in every state the object can
    be in; see [reachable_connected]. *)
Record connected (s : State) : Prop := mkConnected {
  connected_transport : status s ≠ CLOSED → attempts s ≠ [];
  connected_timer : status s = RECONNECTING → timers s ≠ [];
  connected_buffers :
    ∀ q l, unprocessedLiveResponses s !! q = Some l → l ≠ [];
}.

(** ** Basic facts *)

Lemma submseteq_NoDup {A} (l k : list A) : l ⊆+ k → NoDup k → NoDup l.
Proof.
  intros [k' Hk]%submseteq_Permutation. rewrite Hk, NoDup_app. tauto.
Qed.

Lemma length_settle_in p v ps : length (settle_in p v ps) = length ps.
Proof.
  unfold settle_in. destruct (ps !! p) as [[]|]; auto using length_insert.
Qed.

Lemma settle_in_ne p q v ps : p ≠ q → settle_in p v ps !! q = ps !! q.
Proof.
  intros. unfold settle_in.
  destruct (ps !! p) as [[]|]; auto using list_lookup_insert_ne.
Qed.

Lemma settle_in_pending p v ps :
  ps !! p = Some Pending → settle_in p v ps !! p = Some v.
Proof.
  intros H. unfold settle_in. rewrite H.
  apply list_lookup_insert_eq. by eapply lookup_lt_Some.
Qed.

Lemma settle_in_settled p v ps :
  ps !! p ≠ Some Pending → settle_in p v ps = ps.
Proof.
  intros H. unfold settle_in. destruct (ps !! p) as [[]|]; congruence.
Qed.

Lemma elem_of_queue_rets s p :
  p ∈ queue_rets s ↔ ∃ k, queue s !! k = Some p.
Proof.
  unfold queue_rets. rewrite list_elem_of_fmap. split.
  - intros [[k r] [-> Hk]]. exists k. by apply elem_of_map_to_list.
  - intros [k Hk]. exists (k, p). split; [done|].
    by apply elem_of_map_to_list.
Qed.

Lemma wf_init h : wf (init h).
Proof.
  constructor; simpl; try done.
  - intros p. unfold resolvers, queue_rets; simpl.
    rewrite map_to_list_empty. simpl. by intros ?%elem_of_nil.
  - unfold resolvers, queue_rets; simpl. rewrite map_to_list_empty.
    simpl. constructor.
  - intros p. unfold queue_rets; simpl. rewrite map_to_list_empty.
    simpl. by intros ?%elem_of_nil.
Qed.

(** ** Each primitive update keeps states well formed *)

Lemma wf_emit_all es s : wf s → wf (emit_all es s).
Proof. intros []; by constructor. Qed.

Lemma wf_set_status x s : wf s → wf (set_status x s).
Proof. intros []; by constructor. Qed.

Lemma wf_set_closed x s : wf s → wf (set_closed x s).
Proof. intros []; by constructor. Qed.

Lemma wf_set_unprocessedLiveResponses x s :
  wf s → wf (set_unprocessedLiveResponses x s).
Proof. intros []; by constructor. Qed.

Lemma wf_set_liveQueue x s :
  (∀ q l, x !! q = Some l → l ≠ []) → wf s → wf (set_liveQueue x s).
Proof. intros ? []; by constructor. Qed.

Lemma wf_set_id_calls n s :
  (id_calls s ≤ n)%nat → wf s → wf (set_id_calls n s).
Proof.
  intros ? []; constructor; try done. simpl.
  intros k r [m [? ?]]%wf_keys0. exists m. split; [lia|done].
Qed.

Lemma wf_new_promise s : wf s → wf (snd (new_promise s)).
Proof.
  intros Hwf. pose proof Hwf as []. constructor; simpl; try done.
  - intros p ?%wf_alloc0. rewrite length_app. simpl. lia.
  - intros p Hp. rewrite lookup_app_l; [by apply wf_pending0|].
    apply wf_alloc0. unfold resolvers. rewrite !elem_of_app in *. tauto.
  - intros w a Ha. rewrite lookup_app_l; [by apply (wf_attempts0 w)|].
    apply wf_alloc0. unfold resolvers. rewrite !elem_of_app.
    right; right; left. apply list_elem_of_fmap. exists a. split; [done|].
    by eapply list_elem_of_lookup_2.
Qed.

Lemma wf_settle p v s :
  wf s →
  p ∉ queue_rets s ++ map task_ret (tasks s)
        ++ map attempt_ready (attempts s) →
  wf (settle p v s).
Proof.
  intros Hwf Hp. pose proof Hwf as []. constructor; simpl; try done.
  - intros q ?%wf_alloc0. by rewrite length_settle_in.
  - intros q Hq. rewrite settle_in_ne; [by apply wf_pending0|].
    intros ->. apply Hp. rewrite !elem_of_app in *. tauto.
  - intros w a Ha. rewrite settle_in_ne; [by apply (wf_attempts0 w)|].
    intros ->. apply Hp. rewrite !elem_of_app. right; right.
    apply list_elem_of_fmap. exists a. split; [done|].
    by eapply list_elem_of_lookup_2.
Qed.

Lemma queue_rets_insert_submseteq (q : gmap string nat) k p :
  map snd (map_to_list (<[k := p]> q)) ⊆+ p :: map snd (map_to_list q).
Proof.
  destruct (q !! k) as [x|] eqn:Hk.
  - rewrite <- insert_delete_eq.
    rewrite map_to_list_insert by apply lookup_delete_eq.
    rewrite <- (map_to_list_delete q k x) by done. simpl.
    apply submseteq_skip, submseteq_cons. done.
  - by rewrite map_to_list_insert.
Qed.

Lemma queue_rets_delete_submseteq (q : gmap string nat) k :
  map snd (map_to_list (delete k q)) ⊆+ map snd (map_to_list q).
Proof.
  destruct (q !! k) as [x|] eqn:Hk.
  - rewrite <- (map_to_list_delete q k x) by done. simpl.
    by apply submseteq_cons.
  - by rewrite delete_id.
Qed.

Lemma queue_rets_delete_perm (q : gmap string nat) k r :
  q !! k = Some r →
  r :: map snd (map_to_list (delete k q)) ≡ₚ map snd (map_to_list q).
Proof. intros Hk. by rewrite <- (map_to_list_delete q k r). Qed.

(** Owners may go, and fresh promises may get an owner. *)
Lemma wf_resolvers_change s s' news :
  wf s →
  resolvers s' ⊆+ news ++ resolvers s →
  NoDup news →
  (∀ p, p ∈ news → (p ∉ resolvers s) ∧ (p < length (promises s'))%nat) →
  (length (promises s) ≤ length (promises s'))%nat →
  (∀ p, p ∈ resolvers s' → (p < length (promises s'))%nat)
  ∧ NoDup (resolvers s').
Proof.
  intros [] Hsub Hnd Hnew Hlen. split.
  - intros p Hp. eapply elem_of_submseteq in Hp; [|done].
    apply elem_of_app in Hp as [Hp|Hp]; [by apply Hnew|].
    apply wf_alloc0 in Hp. lia.
  - eapply submseteq_NoDup; [done|]. apply NoDup_app. split_and!; [done| |done].
    intros p Hp. by apply Hnew.
Qed.

Lemma wf_add_task t s :
  wf s → task_ret t ∉ resolvers s →
  promises s !! task_ret t = Some Pending →
  wf (set_tasks (tasks s ++ [t]) s).
Proof.
  intros Hwf Hnew Hp. pose proof Hwf as [].
  destruct (wf_resolvers_change s (set_tasks (tasks s ++ [t]) s)
              [task_ret t] Hwf) as [Ha Hn]; simpl; try done.
  - unfold resolvers; simpl. rewrite map_app. simpl. solve_submseteq.
  - apply NoDup_singleton.
  - intros p ->%list_elem_of_singleton. split; [done|].
    by eapply lookup_lt_Some.
  - constructor; simpl; try done.
    intros p. rewrite map_app, !elem_of_app. simpl.
    rewrite list_elem_of_singleton. intros [?|[?| ->]]; [| |done];
      apply wf_pending0; rewrite elem_of_app; tauto.
Qed.

Lemma wf_suspend k s :
  (∀ r, task_ret (k r) = r) → wf s → wf (snd (suspend k s)).
Proof.
  intros Hk Hwf. unfold suspend. simpl.
  apply (wf_add_task (k (length (promises s))) (snd (new_promise s))).
  - by apply wf_new_promise.
  - rewrite Hk. intros Hin. apply (wf_alloc s Hwf) in Hin. lia.
  - rewrite Hk. simpl. rewrite lookup_app_r by lia.
    by rewrite Nat.sub_diag.
Qed.

Lemma wf_drop_task i s : wf s → wf (set_tasks (delete i (tasks s)) s).
Proof.
  intros Hwf. pose proof Hwf as [].
  assert (map task_ret (delete i (tasks s)) ⊆+ map task_ret (tasks s)) as Hs.
  { apply sublist_submseteq, (fmap_sublist task_ret), sublist_delete. }
  destruct (wf_resolvers_change s (set_tasks (delete i (tasks s)) s)
              [] Hwf) as [Ha Hn]; simpl; try done.
  - unfold resolvers; simpl. by repeat apply submseteq_app.
  - constructor.
  - by intros p ?%elem_of_nil.
  - constructor; simpl; try done.
    intros p. rewrite elem_of_app. intros [?|?]; apply wf_pending0;
      rewrite elem_of_app; [tauto|]. right. by eapply elem_of_submseteq.
Qed.

Lemma wf_drop_queue k s : wf s → wf (set_queue (delete k (queue s)) s).
Proof.
  intros Hwf. pose proof Hwf as [].
  pose proof (queue_rets_delete_submseteq (queue s) k) as Hs.
  destruct (wf_resolvers_change s (set_queue (delete k (queue s)) s)
              [] Hwf) as [Ha Hn]; simpl; try done.
  - unfold resolvers, queue_rets; simpl. by repeat apply submseteq_app.
  - constructor.
  - by intros p ?%elem_of_nil.
  - constructor; simpl; try done.
    + intros p. unfold queue_rets at 1. simpl. rewrite elem_of_app.
      intros [?|?]; apply wf_pending0; rewrite elem_of_app; [|tauto].
      left. by eapply elem_of_submseteq.
    + intros k' r [? ?]%lookup_delete_Some. by eapply wf_keys0.
Qed.

Lemma wf_clear_queue s : wf s → wf (set_queue ∅ s).
Proof.
  intros Hwf. pose proof Hwf as [].
  destruct (wf_resolvers_change s (set_queue ∅ s) [] Hwf) as [Ha Hn];
    simpl; try done.
  - unfold resolvers, queue_rets; simpl. rewrite map_to_list_empty. simpl.
    apply submseteq_inserts_l. done.
  - constructor.
  - by intros p ?%elem_of_nil.
  - constructor; simpl; try done.
    intros p. unfold queue_rets at 1. simpl. rewrite map_to_list_empty.
    simpl. intros ?. apply wf_pending0. rewrite elem_of_app. tauto.
Qed.

Lemma wf_add_queue n p s :
  wf s → p ∉ resolvers s → promises s !! p = Some Pending →
  (n < id_calls s)%nat →
  wf (set_queue (<[to_key (getIncrementalID n) := p]> (queue s)) s).
Proof.
  intros Hwf Hnew Hp Hn. pose proof Hwf as [].
  set (k := to_key (getIncrementalID n)).
  pose proof (queue_rets_insert_submseteq (queue s) k p) as Hs.
  destruct (wf_resolvers_change s (set_queue (<[k := p]> (queue s)) s)
              [p] Hwf) as [Ha Hnd]; simpl; try done.
  - unfold resolvers, queue_rets; simpl.
    by refine (submseteq_app _ (p :: _) _ _ Hs _).
  - apply NoDup_singleton.
  - intros ? ->%list_elem_of_singleton. split; [done|].
    by eapply lookup_lt_Some.
  - constructor; simpl; try done.
    + intros q. unfold queue_rets at 1. simpl. rewrite elem_of_app.
      intros [Hq|?].
      * eapply elem_of_submseteq in Hq; [|done].
        apply elem_of_cons in Hq as [->|?]; [done|].
        apply wf_pending0. rewrite elem_of_app. by left.
      * apply wf_pending0. rewrite elem_of_app. by right.
    + intros k' r. rewrite lookup_insert. case_decide.
      * intros _. subst k'. by exists n.
      * apply wf_keys0.
Qed.

Lemma wf_set_resolveClosed p s :
  wf s → p ∉ resolvers s → (p < length (promises s))%nat →
  wf (set_resolveClosed (Some p) s).
Proof.
  intros Hwf Hnew Hp. pose proof Hwf as [].
  destruct (wf_resolvers_change s (set_resolveClosed (Some p) s)
              [p] Hwf) as [Ha Hnd]; simpl.
  - unfold resolvers; simpl. solve_submseteq.
  - apply NoDup_singleton.
  - by intros ? ->%list_elem_of_singleton.
  - done.
  - by constructor.
Qed.

Lemma wf_set_timers x s :
  (attempts s = [] → x = []) → wf s → wf (set_timers x s).
Proof.
  intros Hx []; constructor; try done. simpl.
  intros Ha. destruct (wf_unopened0 Ha) as (? & ? & ?). auto.
Qed.

Lemma wf_new_attempt p s :
  wf s → p ∉ resolvers s → promises s !! p = Some Pending →
  wf (set_ws (Some (length (attempts s)))
        (set_attempts (attempts s ++ [mkAttempt false p])
           (set_ready (Some p) s))).
Proof.
  intros Hwf Hnew Hp. pose proof Hwf as [].
  match goal with |- wf ?s' =>
    destruct (wf_resolvers_change s s' [p] Hwf) as [Ha Hnd] end;
    simpl; try done.
  - unfold resolvers; simpl. rewrite map_app. simpl. solve_submseteq.
  - apply NoDup_singleton.
  - intros ? ->%list_elem_of_singleton. split; [done|].
    by eapply lookup_lt_Some.
  - constructor; simpl; try done.
    + intros w a. rewrite lookup_app_Some. intros [?|[? Hl]].
      * by apply (wf_attempts0 w).
      * destruct (w - length (attempts s))%nat; [|done].
        simpl in Hl. injection Hl as <-. simpl. tauto.
    + intros w [= <-]. rewrite lookup_app_r by lia.
      rewrite Nat.sub_diag. by eexists.
    + intros [_ ?]%app_eq_nil. done.
Qed.

Lemma new_promise_fresh s :
  wf s →
(length (promises s) ∉ resolvers (snd (new_promise s)))
  ∧ promises (snd (new_promise s)) !! length (promises s) = Some Pending.
Proof.
  intros Hwf. split.
  - intros Hin. apply (wf_alloc s Hwf) in Hin. lia.
  - simpl. rewrite lookup_app_r by lia. by rewrite Nat.sub_diag.
Qed.

Lemma attempt_ready_mark w a s :
  attempts s !! w = Some a →
  map attempt_ready (<[w := mkAttempt true (attempt_ready a)]> (attempts s))
  = map attempt_ready (attempts s).
Proof.
  intros Ha. change (map attempt_ready ?l) with (attempt_ready <$> l).
  rewrite list_fmap_insert. simpl. apply list_insert_id.
  by rewrite list_lookup_fmap, Ha.
Qed.

Lemma wf_owner_distinct s w a :
  wf s → attempts s !! w = Some a →
  attempt_ready a ∉ queue_rets s ++ map task_ret (tasks s).
Proof.
  intros Hwf Ha Hin. pose proof (wf_nodup s Hwf) as Hnd.
  unfold resolvers in Hnd. rewrite !(assoc_L (++)) in Hnd.
  rewrite <- (assoc_L (++) _ (map attempt_ready _)) in Hnd.
  apply NoDup_app in Hnd as (_ & Hd & _). apply (Hd _ Hin).
  apply elem_of_app. left. apply list_elem_of_fmap. exists a.
  split; [done|]. by eapply list_elem_of_lookup_2.
Qed.

Lemma wf_attempt_inj s w w' a a' :
  wf s → attempts s !! w = Some a → attempts s !! w' = Some a' →
  attempt_ready a = attempt_ready a' → w = w'.
Proof.
  intros Hwf Ha Ha' Heq. pose proof (wf_nodup s Hwf) as Hnd.
  unfold resolvers in Hnd.
  apply NoDup_app in Hnd as (_ & _ & Hnd).
  apply NoDup_app in Hnd as (_ & _ & Hnd).
  apply NoDup_app in Hnd as (Hnd & _ & _).
  eapply NoDup_lookup; [exact Hnd| |].
  - change (map attempt_ready ?l) with (attempt_ready <$> l).
    by rewrite list_lookup_fmap, Ha.
  - change (map attempt_ready ?l) with (attempt_ready <$> l).
    by rewrite list_lookup_fmap, Ha', Heq.
Qed.

Lemma wf_resolve_attempt w a v s :
  wf s → attempts s !! w = Some a → resolved a = false → v ≠ Pending →
  wf (settle (attempt_ready a) v (mark_resolved w a s)).
Proof.
  intros Hwf Ha Hr Hv. pose proof Hwf as [].
  pose proof (wf_owner_distinct s w a Hwf Ha) as Hd.
  constructor; simpl; try done.
  - intros p. unfold resolvers; simpl. rewrite attempt_ready_mark by done.
    rewrite length_settle_in. apply wf_alloc0.
  - unfold resolvers; simpl. by rewrite attempt_ready_mark.
  - intros p Hp. rewrite settle_in_ne; [by apply wf_pending0|].
    by intros <-.
  - intros w' a'. destruct (decide (w = w')) as [<-|Hne].
    + rewrite list_lookup_insert_eq by (by eapply lookup_lt_Some).
      intros [= <-]. simpl. rewrite settle_in_pending.
      * split; [done|]. by intros [= ->].
      * by apply (wf_attempts0 w a).
    + rewrite list_lookup_insert_ne by done. intros Ha'.
      rewrite settle_in_ne; [by apply (wf_attempts0 w')|].
      intros Heq. apply Hne. by eapply wf_attempt_inj.
  - intros w' Hw. apply wf_ws0 in Hw.
    apply lookup_lt_is_Some. rewrite length_insert.
    by apply lookup_lt_is_Some.
  - intros Hnil. apply (f_equal length) in Hnil.
    rewrite length_insert in Hnil. apply lookup_lt_Some in Ha.
    simpl in Hnil. lia.
  - intros Hn%wf_opened0. by rewrite Hn in Ha.
Qed.

(** ** Every method and listener keeps states well formed *)

Lemma wf_close reason s : wf s → wf (snd (close reason s)).
Proof.
  intros Hwf. unfold close.
  apply wf_suspend; [done|]. apply wf_emit_all, wf_emit_all.
  apply wf_set_status with (x := CLOSED) in Hwf.
  destruct (new_promise_fresh _ Hwf) as [Hf Hp].
  apply wf_set_resolveClosed.
  - by apply wf_set_closed, wf_new_promise.
  - exact Hf.
  - simpl. rewrite length_app. simpl. lia.
Qed.

Lemma wf_open s : wf s → wf (snd (open s)).
Proof.
  intros Hwf. unfold open.
  pose proof (wf_close 1000 s Hwf) as Hc.
  destruct (close 1000 s) as [c s1]. simpl in Hc. simpl.
  apply wf_emit_all with (es := [WsCreated (length (attempts s1))]) in Hc.
  destruct (new_promise_fresh _ Hc) as [Hf Hp].
  apply wf_new_promise in Hc.
  exact (wf_new_attempt _ _ Hc Hf Hp).
Qed.

Lemma wf_send method params s : wf s → wf (snd (send method params s)).
Proof. intros. by apply wf_suspend. Qed.

Lemma wf_listenLive q cb s : wf s → wf (snd (listenLive q cb s)).
Proof.
  intros Hwf. unfold listenLive.
  apply wf_suspend; [done|]. apply wf_emit_all.
  match goal with |- wf (set_liveQueue ?x (set_liveQueue _ s)) =>
    change (wf (set_liveQueue x s)) end.
  apply wf_set_liveQueue; [|done].
  intros q' l. simpl. rewrite lookup_insert. case_decide.
  - intros [= <-]. by intros [_ ?]%app_eq_nil.
  - destruct (liveQueue s !! q) eqn:Hq.
    + apply (wf_listeners s Hwf).
    + rewrite lookup_insert_ne by done. apply (wf_listeners s Hwf).
Qed.

Lemma wf_kill q s : wf s → wf (snd (kill q s)).
Proof.
  intros Hwf. unfold kill.
  match goal with |- context [send _ _ ?s1] => assert (wf s1) as H1 end.
  { destruct (liveQueue s !! q) as [cbs|] eqn:Hq; [|done].
    apply wf_set_liveQueue; [|by apply wf_emit_all].
    intros q' l [_ ?]%lookup_delete_Some. by eapply (wf_listeners s Hwf). }
  apply (wf_send "kill" [JStr q]) in H1.
  destruct (send "kill" [JStr q] _) as [r s2]. simpl in H1.
  by apply wf_suspend.
Qed.

Lemma wf_handleLiveBatch result s : wf s → wf (handleLiveBatch result s).
Proof.
  intros Hwf. unfold handleLiveBatch.
  destruct (liveQueue s !! _); [by apply wf_emit_all|].
  by do 2 apply wf_set_unprocessedLiveResponses.
Qed.

Lemma wf_on_open w a s :
  wf s → attempts s !! w = Some a → wf (on_open w a s).
Proof.
  intros Hwf Ha. unfold on_open. apply wf_emit_all.
  destruct (resolved a) eqn:Hr; [by apply wf_set_status|].
  apply wf_resolve_attempt; [by apply wf_set_status|done..].
Qed.

Lemma wf_on_error w a s :
  wf s → attempts s !! w = Some a → wf (on_error w a s).
Proof.
  intros Hwf Ha. unfold on_error.
  destruct (resolved a) eqn:Hr; [by apply wf_set_status|].
  apply wf_emit_all.
  apply wf_resolve_attempt; [by apply wf_set_status|done..].
Qed.

Lemma wf_resolveClosed_distinct s p :
  wf s → resolveClosed s = Some p →
  p ∉ queue_rets s ++ map task_ret (tasks s)
        ++ map attempt_ready (attempts s).
Proof.
  intros Hwf Hp Hin. pose proof (wf_nodup s Hwf) as Hnd.
  unfold resolvers in Hnd. rewrite Hp in Hnd. simpl in Hnd.
  rewrite !(assoc_L (++)) in Hnd.
  apply NoDup_app in Hnd as (_ & Hd & _).
  rewrite !(assoc_L (++)) in Hin.
  apply (Hd _ Hin). by left.
Qed.

Lemma wf_on_close w s : wf s → is_Some (attempts s !! w) → wf (on_close s).
Proof.
  intros Hwf Hw. unfold on_close.
  match goal with |- context [emit_all _ ?s1] => assert (wf s1) as H1 end.
  { destruct (resolveClosed s) eqn:Hp; [|done].
    apply wf_settle; [done|]. by apply wf_resolveClosed_distinct. }
  match goal with |- context [set_unprocessedLiveResponses ∅ ?s1] =>
    assert (wf s1 ∧ attempts s1 ≠ []) as [H2 Hne] end.
  { split.
    - apply wf_set_liveQueue; [by intros ?? ?%lookup_empty_Some|].
      by apply wf_clear_queue, wf_emit_all.
    - simpl. destruct (resolveClosed s); simpl;
        intros Hnil; rewrite Hnil in Hw; by destruct Hw. }
  apply wf_set_unprocessedLiveResponses with (x := ∅) in H2.
  case_decide; [done|].
  apply wf_emit_all, wf_emit_all, wf_set_timers; [done|].
  by apply wf_set_status.
Qed.

Lemma queue_drop_unowned s k r :
  wf s → queue s !! k = Some r →
  r ∉ resolvers (set_queue (delete k (queue s)) s).
Proof.
  intros Hwf Hk. pose proof (wf_nodup s Hwf) as Hnd.
  unfold resolvers, queue_rets in *. simpl.
  rewrite <- (queue_rets_delete_perm _ k r Hk) in Hnd. simpl in Hnd.
  by apply NoDup_cons in Hnd as [? _].
Qed.

Lemma task_drop_unowned s i t :
  wf s → tasks s !! i = Some t →
  task_ret t ∉ resolvers (set_tasks (delete i (tasks s)) s).
Proof.
  intros Hwf Hi. pose proof (wf_nodup s Hwf) as Hnd.
  unfold resolvers in *. simpl.
  assert (map task_ret (tasks s)
          ≡ₚ task_ret t :: map task_ret (delete i (tasks s))) as Hperm.
  { rewrite delete_take_drop.
    rewrite <- (take_drop_middle (tasks s) i t Hi) at 1.
    rewrite !map_app. simpl. by rewrite Permutation_middle. }
  rewrite Hperm in Hnd. simpl in Hnd.
  rewrite <- Permutation_middle in Hnd.
  by apply NoDup_cons in Hnd as [? _].
Qed.

Lemma wf_settle_unowned p v s : wf s → p ∉ resolvers s → wf (settle p v s).
Proof.
  intros Hwf Hp. apply wf_settle; [done|]. intros Hin. apply Hp.
  unfold resolvers. rewrite !elem_of_app in *. tauto.
Qed.

Lemma wf_on_message res s s' : wf s → on_message res s = Some s' → wf s'.
Proof.
  intros Hwf. unfold on_message.
  destruct (isLiveNotification res) as [[]|]; [| |done].
  - intros [= <-]. by apply wf_handleLiveBatch.
  - destruct (get_field "id" _) as [id|]; [|by intros [= <-]].
    destruct (truthy id); [|by intros [= <-]].
    destruct (queue s !! to_key id) as [r|] eqn:Hk; [|by intros [= <-]].
    intros [= <-].
    change (wf (settle r (Fulfilled (Some res))
                  (set_queue (delete (to_key id) (queue s)) s))).
    apply wf_settle_unowned; [by apply wf_drop_queue|].
    by apply queue_drop_unowned.
Qed.

Lemma wf_send_resume method params ret s :
  wf s → ret ∉ resolvers s → promises s !! ret = Some Pending →
  wf (send_resume method params ret s).
Proof.
  intros Hwf Hr Hp. unfold send_resume. apply wf_emit_all.
  apply (wf_add_queue (id_calls s) ret (set_id_calls (S (id_calls s)) s));
    simpl; [|done|done|lia].
  apply wf_set_id_calls; [lia|done].
Qed.

Lemma wf_resume i t s :
  wf s → tasks s !! i = Some t →
  wf (resume t (set_tasks (delete i (tasks s)) s)).
Proof.
  intros Hwf Hi.
  pose proof (task_drop_unowned s i t Hwf Hi) as Hun.
  assert (promises s !! task_ret t = Some Pending) as Hp.
  { apply (wf_pending s Hwf). rewrite elem_of_app. right.
    apply list_elem_of_fmap. exists t. split; [done|].
    by eapply list_elem_of_lookup_2. }
  pose proof (wf_drop_task i s Hwf) as Hwf'.
  destruct t as [aw m ps r|q r|aw q r|aw r]; simpl in *.
  - destruct (from_option _ _ _); [by apply wf_settle_unowned|].
    by apply wf_send_resume.
  - unfold listenLive_resume.
    by apply wf_settle_unowned; [apply wf_set_unprocessedLiveResponses|].
  - destruct (rejected _ _); [by apply wf_settle_unowned|].
    unfold kill_resume.
    by apply wf_settle_unowned; [apply wf_set_unprocessedLiveResponses|].
  - destruct (rejected _ _); by apply wf_settle_unowned.
Qed.

Lemma wf_step e s s' : wf s → step e s = Some s' → wf s'.
Proof.
  intros Hwf. destruct e; unfold step.
  - intros <-%(inj Some). by apply wf_open.
  - intros <-%(inj Some). by apply wf_close.
  - intros <-%(inj Some). by apply wf_send.
  - intros <-%(inj Some). by apply wf_listenLive.
  - intros <-%(inj Some). by apply wf_kill.
  - destruct (attempts s !! w) eqn:Hw; [|done]. intros <-%(inj Some).
    by apply wf_on_open.
  - destruct (attempts s !! w) eqn:Hw; [|done]. intros <-%(inj Some).
    by apply wf_on_error.
  - destruct (attempts s !! w) eqn:Hw; [|done]. intros <-%(inj Some).
    by apply (wf_on_close w).
  - destruct (attempts s !! w) eqn:Hw; [|done]. intros <-%(inj Some).
    destruct (on_message data s) eqn:Hm; [|done].
    by eapply wf_on_message.
  - destruct (timers s !! i) eqn:Hi; [|done]. intros <-%(inj Some).
    apply (wf_open (set_timers (delete i (timers s)) s)).
    apply wf_set_timers; [|done].
    intros Hnil. destruct (wf_unopened s Hwf Hnil) as (_ & _ & Ht).
    by rewrite Ht in Hi.
  - destruct (tasks s !! i) as [t|] eqn:Hi; [|done].
    change (Some t ≫= _) with
      (if runnable s t
       then Some (resume t (set_tasks (delete i (tasks s)) s)) else None).
    destruct (runnable s t); [|done]. intros <-%(inj Some).
    by apply wf_resume.
Qed.

Lemma wf_run es s s' : wf s → run es s = Some s' → wf s'.
Proof.
  revert s. induction es as [|e es IH]; simpl; intros s Hwf.
  - by intros [= <-].
  - destruct (step e s) as [s1|] eqn:He; [|done]. simpl.
    apply IH. by eapply wf_step.
Qed.

Lemma reachable_wf s : reachable s → wf s.
Proof. intros (h & es & Hrun). eapply wf_run; [apply wf_init|done]. Qed.

Lemma reachable_init h : reachable (init h).
Proof. by exists h, []. Qed.

Lemma run_app es1 es2 s :
  run (es1 ++ es2) s = s' ← run es1 s; run es2 s'.
Proof.
  revert s. induction es1 as [|e es1 IH]; simpl; intros s; [done|].
  destruct (step e s); simpl; [apply IH|done].
Qed.

Lemma reachable_step e s s' : reachable s → step e s = Some s' → reachable s'.
Proof.
  intros (h & es & Hrun) He. exists h, (es ++ [e]).
  rewrite run_app, Hrun. simpl. by rewrite He.
Qed.

Lemma reachable_run es s s' : reachable s → run es s = Some s' → reachable s'.
Proof.
  intros (h & es0 & Hrun) He. exists h, (es0 ++ es).
  by rewrite run_app, Hrun.
Qed.

(** ** The close listener *)

Lemma callbacks_invoked_notify_all cbs data :
  callbacks_invoked (notify_all cbs data) = map (λ cb, (cb, data)) cbs.
Proof. induction cbs as [|cb cbs IH]; simpl; [done|]. by rewrite IH. Qed.

Lemma callbacks_invoked_app es1 es2 :
  callbacks_invoked (es1 ++ es2)
  = callbacks_invoked es1 ++ callbacks_invoked es2.
Proof. apply omap_app. Qed.

Lemma all_listeners_covers s q cbs :
  liveQueue s !! q = Some cbs → cbs ⊆+ all_listeners s.
Proof.
  intros Hq. unfold all_listeners.
  rewrite <- (map_to_list_delete (liveQueue s) q cbs Hq). simpl.
  by apply submseteq_inserts_r.
Qed.

Lemma on_close_out s :
  out (on_close s)
  = out s ++ notify_all (all_listeners s) SOCKET_CLOSED
      ++ reconnect_effects s.
Proof.
  unfold on_close, reconnect_effects, all_listeners.
  destruct (resolveClosed s); simpl;
    destruct (decide (status s = CLOSED)); simpl.
  all: by rewrite ?app_nil_r, <- ?(assoc_L (++)).
Qed.

Lemma step_WsClose w s :
  is_Some (attempts s !! w) → step (WsClose w) s = Some (on_close s).
Proof. intros [a Ha]. unfold step. by rewrite Ha. Qed.

(** C1.  A close event of any transport ever created runs the close
    listener.  Whenever the close listener of a transport runs, the effects it
    adds to the trace begin with one [CallbackInvoked cb SOCKET_CLOSED]
    for each entry of each listener list of [liveQueue] (the callbacks
    invoked are, with multiplicity, those of [all_listeners], which
    contains every registered list), no callback is invoked after these,
    and in the resulting state [queue], [liveQueue] and
    [unprocessedLiveResponses] are all empty. *)
Theorem close_event_notifies_every_listener_and_clears (s : State) :
  ∃ rest,
    (∀ w, is_Some (attempts s !! w) →
          step (WsClose w) s = Some (on_close s))
    ∧ out (on_close s)
      = out s ++ notify_all (all_listeners s) SOCKET_CLOSED ++ rest
    ∧ callbacks_invoked (notify_all (all_listeners s) SOCKET_CLOSED ++ rest)
      = map (λ cb, (cb, SOCKET_CLOSED)) (all_listeners s)
    ∧ (∀ q cbs, liveQueue s !! q = Some cbs → cbs ⊆+ all_listeners s)
    ∧ length (all_listeners s)
      = sum_list (map (λ kv, length (snd kv)) (map_to_list (liveQueue s)))
    ∧ queue (on_close s) = ∅
    ∧ liveQueue (on_close s) = ∅
    ∧ unprocessedLiveResponses (on_close s) = ∅.
Proof.
  exists (reconnect_effects s). split_and!.
  - intros w. apply step_WsClose.
  - apply on_close_out.
  - rewrite callbacks_invoked_app, callbacks_invoked_notify_all.
    unfold reconnect_effects. case_decide; simpl.
    + by rewrite app_nil_r.
    + destruct (onClose (hooks s)); simpl; by rewrite app_nil_r.
  - apply all_listeners_covers.
  - unfold all_listeners.
    induction (map_to_list (liveQueue s)) as [|[k l] m IH]; simpl; [done|].
    by rewrite length_app, IH.
  - unfold on_close. destruct (resolveClosed s); simpl; by case_decide.
  - unfold on_close. destruct (resolveClosed s); simpl; by case_decide.
  - unfold on_close. destruct (resolveClosed s); simpl; by case_decide.
Qed.

Lemma on_close_status s :
  status (on_close s)
  = if decide (status s = CLOSED) then CLOSED else RECONNECTING.
Proof.
  unfold on_close. destruct (resolveClosed s); simpl;
    destruct (decide (status s = CLOSED)); simpl; done.
Qed.

Lemma on_close_timers s :
  timers (on_close s)
  = if decide (status s = CLOSED) then timers s
    else timers s ++ [RECONNECT_DELAY].
Proof.
  unfold on_close. destruct (resolveClosed s); simpl;
    destruct (decide (status s = CLOSED)); simpl; done.
Qed.

Lemma close_status reason s : status (snd (close reason s)) = CLOSED.
Proof. done. Qed.

Lemma close_timers reason s : timers (snd (close reason s)) = timers s.
Proof. done. Qed.

Lemma step_TimerFires i d s :
  timers s !! i = Some d →
  step (TimerFires i) s
  = Some (snd (open (set_timers (delete i (timers s)) s))).
Proof. intros Hi. unfold step. by rewrite Hi. Qed.

Lemma delete_last {A} (l : list A) x : delete (length l) (l ++ [x]) = l.
Proof.
  rewrite delete_take_drop, take_app_length.
  rewrite drop_ge by (rewrite length_app; simpl; lia).
  apply app_nil_r.
Qed.

(** C2.  A close event of any transport ever created runs the close
    listener.  When the close listener runs in a state whose status is not
    [CLOSED], the status becomes [RECONNECTING], one timer with delay
    2500 is set (and when it fires, [open()] is what runs), and the
    [onClose] hook is called if it was supplied.  When it runs in a state
    whose status is [CLOSED], as is the case right after [close(code)],
    the status stays [CLOSED], no timer is set and nothing beyond the
    listener notifications is emitted. *)
Theorem close_event_reconnects_unless_closed (s : State) :
  (∀ w, is_Some (attempts s !! w) → step (WsClose w) s = Some (on_close s))
  ∧ (status s ≠ CLOSED →
     status (on_close s) = RECONNECTING
     ∧ timers (on_close s) = timers s ++ [2500]
     ∧ step (TimerFires (length (timers s))) (on_close s)
       = Some (snd (open (set_timers (timers s) (on_close s))))
     ∧ out (on_close s)
       = out s ++ notify_all (all_listeners s) SOCKET_CLOSED
           ++ TimeoutSet 2500
           :: (if onClose (hooks s) then [HookInvoked HClose] else []))
  ∧ (status s = CLOSED →
       status (on_close s) = CLOSED
       ∧ timers (on_close s) = timers s
       ∧ out (on_close s)
         = out s ++ notify_all (all_listeners s) SOCKET_CLOSED)
  ∧ (∀ code,
       status (snd (close code s)) = CLOSED
       ∧ status (on_close (snd (close code s))) = CLOSED
       ∧ timers (on_close (snd (close code s))) = timers s).
Proof.
  split_and!.
  - intros w. apply step_WsClose.
  - intros Hs. rewrite on_close_status, on_close_timers, on_close_out.
    unfold reconnect_effects. rewrite !decide_False by done.
    split_and!; try done.
    rewrite (step_TimerFires _ RECONNECT_DELAY).
    + rewrite on_close_timers, decide_False by done.
      by rewrite delete_last.
    + rewrite on_close_timers, decide_False by done.
      rewrite lookup_app_r by lia. by rewrite Nat.sub_diag.
  - intros Hs. rewrite on_close_status, on_close_timers, on_close_out.
    unfold reconnect_effects. rewrite !decide_True by done.
    by rewrite app_nil_r.
  - intros code. rewrite on_close_status, on_close_timers.
    rewrite close_status, close_timers, !decide_True by done. done.
Qed.

(** ** The error listener *)

Lemma settled_false_pending s p :
  (p < length (promises s))%nat → settled s p = false →
  promises s !! p = Some Pending.
Proof.
  intros Hp. unfold settled.
  destruct (lookup_lt_is_Some_2 _ _ Hp) as [x Hx]. rewrite Hx.
  by destruct x.
Qed.

Lemma attempt_ready_allocated s w a :
  wf s → attempts s !! w = Some a →
  (attempt_ready a < length (promises s))%nat.
Proof.
  intros Hwf Ha. apply (wf_alloc s Hwf). unfold resolvers.
  rewrite !elem_of_app. right; right; left.
  apply list_elem_of_fmap. exists a. split; [done|].
  by eapply list_elem_of_lookup_2.
Qed.

(** C10.  In a reachable state, let [a] be the closure of the [open()]
    attempt that created transport [w].  An error event on [w] always
    sets the status to [CLOSED].  If the promise that attempt returned
    has already settled, its [resolved] flag is set, and the event
    leaves the trace (so [onError] is not called), every promise and
    every flag as they were.  If it has not settled, the event rejects
    it, sets the flag and calls [onError] when supplied. *)
Theorem error_after_settling_is_silent (s : State) (w : ws_id) (a : Attempt) :
  reachable s →
  attempts s !! w = Some a →
  step (WsError w) s = Some (on_error w a s)
  ∧ status (on_error w a s) = CLOSED
  ∧ (settled s (attempt_ready a) = true →
       resolved a = true
       ∧ out (on_error w a s) = out s
       ∧ promises (on_error w a s) = promises s
       ∧ attempts (on_error w a s) = attempts s)
  ∧ (settled s (attempt_ready a) = false →
       resolved a = false
       ∧ out (on_error w a s)
         = out s ++ (if onError (hooks s) then [HookInvoked HError] else [])
       ∧ promises (on_error w a s) !! attempt_ready a = Some Rejected
       ∧ (resolved <$> attempts (on_error w a s) !! w) = Some true).
Proof.
  intros Hwf%reachable_wf Ha.
  pose proof (wf_attempts s Hwf w a Ha) as Hflag.
  split_and!.
  - unfold step. by rewrite Ha.
  - unfold on_error. by destruct (resolved a).
  - intros Hs. assert (resolved a = true) as Hr.
    { destruct (resolved a); [done|].
      destruct Hflag as [Hp _]. specialize (Hp eq_refl).
      unfold settled in Hs. by rewrite Hp in Hs. }
    unfold on_error. by rewrite Hr.
  - intros Hs.
    apply settled_false_pending in Hs;
      [|by eapply attempt_ready_allocated].
    assert (resolved a = false) as Hr by by apply Hflag.
    unfold on_error. rewrite Hr. simpl. split_and!; [done|done| |].
    + by apply settle_in_pending.
    + rewrite list_lookup_insert_eq by (by eapply lookup_lt_Some). done.
Qed.

(** ** The message listener *)






Lemma handleLiveBatch_frame result s :
  queue (handleLiveBatch result s) = queue s
  ∧ promises (handleLiveBatch result s) = promises s
  ∧ attempts (handleLiveBatch result s) = attempts s.
Proof. unfold handleLiveBatch. by destruct (liveQueue s !! _). Qed.

Lemma on_message_attempts frame s s' :
  on_message frame s = Some s' → attempts s' = attempts s.
Proof.
  unfold on_message.
  destruct (isLiveNotification frame) as [[]|]; [| |done].
  - intros [= <-]. apply handleLiveBatch_frame.
  - destruct (get_field "id" _) as [id|]; [|by intros [= <-]].
    destruct (truthy id); [|by intros [= <-]].
    destruct (queue s !! to_key id); by intros [= <-].
Qed.



Lemma queue_entry_pending s k r :
  wf s → queue s !! k = Some r → promises s !! r = Some Pending.
Proof.
  intros Hwf Hq. apply (wf_pending s Hwf). rewrite elem_of_app. left.
  apply elem_of_queue_rets. by exists k.
Qed.

(** ** Live queries: buffering and replay *)


Lemma receive_attempts frame s : attempts (receive frame s) = attempts s.
Proof.
  unfold receive. destruct (on_message frame s) eqn:Hm; [|done].
  by eapply on_message_attempts.
Qed.


Lemma run_cons e es s : run (e :: es) s = step e s ≫= run es.
Proof. done. Qed.


Lemma receive_notification frame q payload s :
  as_notification frame = Some (q, payload) →
  receive frame s
  = match liveQueue s !! q with
    | Some cbs => emit_all (notify_all cbs payload) s
    | None =>
        set_unprocessedLiveResponses
          (<[q := buffered s q ++ [payload]]> (unprocessedLiveResponses s)) s
    end.
Proof.
  unfold as_notification, receive, on_message.
  destruct (isLiveNotification frame) as [[]|]; [|done..].
  intros [= <- <-]. simpl. unfold handleLiveBatch.
  destruct (get_field "id" _) as [v|]; simpl.
  - destruct (liveQueue s !! to_key v); [done|]. unfold buffered. simpl.
    destruct (unprocessedLiveResponses s !! to_key v) eqn:Hu; simpl.
    + by rewrite Hu.
    + rewrite lookup_insert_eq. simpl. by rewrite insert_insert_eq.
  - destruct (liveQueue s !! "undefined"); [done|]. unfold buffered. simpl.
    destruct (unprocessedLiveResponses s !! "undefined") eqn:Hu; simpl.
    + by rewrite Hu.
    + rewrite lookup_insert_eq. simpl. by rewrite insert_insert_eq.
Qed.









Lemma step_Resume i t s :
  tasks s !! i = Some t → runnable s t = true →
  step (Resume i) s = Some (resume t (set_tasks (delete i (tasks s)) s)).
Proof. intros Hi Hr. unfold step. rewrite Hi. simpl. by rewrite Hr. Qed.

Lemma lookup_snoc {A} (l : list A) x : (l ++ [x]) !! length l = Some x.
Proof. rewrite lookup_app_r by lia. by rewrite Nat.sub_diag. Qed.


(** ** What one event adds to the trace *)




Lemma close_out reason s :
  out (snd (close reason s)) = out s ++ close_effects reason s.
Proof. unfold close, close_effects. simpl. by rewrite (assoc_L (++)). Qed.

Lemma open_out s :
  out (snd (open s))
  = out s ++ close_effects 1000 s ++ [WsCreated (length (attempts s))].
Proof.
  unfold open, close, close_effects. simpl. by rewrite !(assoc_L (++)).
Qed.







(** ** Killing a live query *)


(** ** Which promises and owners one event can touch *)

Lemma lookup_old {A} (l k : list A) p :
  (p < length l)%nat → (l ++ k) !! p = l !! p.
Proof. intros. by apply lookup_app_l. Qed.

Lemma settle_in_old p q v ps : q ≠ p → settle_in q v ps !! p = ps !! p.
Proof. intros. by apply settle_in_ne. Qed.

Lemma receive_promises frame s p :
  (¬ ∃ k, answers frame k ∧ queue s !! k = Some p) →
  promises (receive frame s) !! p = promises s !! p.
Proof.
  intros Hf. unfold receive, on_message.
  destruct (isLiveNotification frame) as [[]|]; simpl; [|..|done].
  - by rewrite (proj1 (proj2 (handleLiveBatch_frame _ _))).
  - destruct (get_field "id" _) as [id|] eqn:Hid; [|done].
    destruct (truthy id) eqn:Ht; [|done].
    destruct (queue s !! to_key id) as [r|] eqn:Hq; [|done]. simpl.
    apply settle_in_ne. intros ->. apply Hf. exists (to_key id).
    split; [|done]. by exists id.
Qed.

Lemma step_promise e s s' p :
  step e s = Some s' → (p < length (promises s))%nat → ¬ fires e s p →
  promises s' !! p = promises s !! p.
Proof.
  intros He Hp Hf. destruct e; unfold step in He; simpl in Hf.
  - apply (inj Some) in He as <-. unfold open, close. simpl.
    rewrite !lookup_old; [done|done|..]; rewrite ?length_app; simpl; lia.
  - apply (inj Some) in He as <-. unfold close. simpl.
    rewrite !lookup_old; [done|done|..]; rewrite ?length_app; simpl; lia.
  - apply (inj Some) in He as <-. simpl. by rewrite lookup_old.
  - apply (inj Some) in He as <-. simpl. by rewrite lookup_old.
  - apply (inj Some) in He as <-. unfold kill.
    destruct (liveQueue s !! queryUuid); simpl;
      rewrite !lookup_old; try done; rewrite ?length_app; simpl; lia.
  - destruct (attempts s !! w) as [a|] eqn:Ha; [|done].
    apply (inj Some) in He as <-. unfold on_open.
    destruct (resolved a); simpl; [done|].
    apply settle_in_ne. intros Heq. apply Hf. by exists a.
  - destruct (attempts s !! w) as [a|] eqn:Ha; [|done].
    apply (inj Some) in He as <-. unfold on_error.
    destruct (resolved a); simpl; [done|].
    apply settle_in_ne. intros Heq. apply Hf. by exists a.
  - destruct (attempts s !! w) as [a|] eqn:Ha; [|done].
    apply (inj Some) in He as <-. unfold on_close.
    destruct (resolveClosed s) as [c|] eqn:Hc; simpl.
    + case_decide; simpl; apply settle_in_ne; intros ->; apply Hf;
        split; done.
    + by case_decide.
  - destruct (attempts s !! w) as [a|] eqn:Ha; [|done].
    apply (inj Some) in He as <-. by apply receive_promises.
  - destruct (timers s !! i); [|done].
    apply (inj Some) in He as <-. unfold open, close. simpl.
    rewrite !lookup_old; [done|done|..]; rewrite ?length_app; simpl; lia.
  - destruct (tasks s !! i) as [t|] eqn:Hi; [|done]. simpl in He.
    destruct (runnable s t); [|done]. apply (inj Some) in He as <-.
    assert (task_ret t ≠ p) as Hne.
    { intros Heq. apply Hf. by exists t. }
    destruct t as [aw m ps r|q r|aw q r|aw r]; simpl in *.
    + destruct (from_option _ _ _); simpl; [by apply settle_in_ne|done].
    + by apply settle_in_ne.
    + destruct (rejected _ _); simpl; by apply settle_in_ne.
    + destruct (rejected _ _); simpl; by apply settle_in_ne.
Qed.

Lemma receive_queue frame s k r :
  queue (receive frame s) !! k = Some r → queue s !! k = Some r.
Proof.
  unfold receive, on_message.
  destruct (isLiveNotification frame) as [[]|]; simpl; [|..|done].
  - by rewrite (proj1 (handleLiveBatch_frame _ _)).
  - destruct (get_field "id" _) as [id|]; [|done].
    destruct (truthy id); [|done].
    destruct (queue s !! to_key id); [|done]. simpl.
    by intros [_ ?]%lookup_delete_Some.
Qed.

Lemma receive_sizes frame s :
  length (promises (receive frame s)) = length (promises s)
  ∧ id_calls (receive frame s) = id_calls s
  ∧ resolveClosed (receive frame s) = resolveClosed s
  ∧ tasks (receive frame s) = tasks s.
Proof.
  unfold receive, on_message.
  destruct (isLiveNotification frame) as [[]|]; simpl; [|..|done].
  - unfold handleLiveBatch. by destruct (liveQueue s !! _).
  - destruct (get_field "id" _) as [id|]; [|done].
    destruct (truthy id); [|done].
    destruct (queue s !! to_key id); [|done]. simpl.
    by rewrite length_settle_in.
Qed.

Lemma on_close_frame s :
  tasks (on_close s) = tasks s
  ∧ attempts (on_close s) = attempts s
  ∧ resolveClosed (on_close s) = resolveClosed s
  ∧ id_calls (on_close s) = id_calls s.
Proof.
  unfold on_close.
  destruct (resolveClosed s) eqn:Hc; simpl; case_decide; simpl;
    by rewrite ?Hc.
Qed.

Ltac held_solver :=
  unfold held_by_task_or_attempt in *; simpl in *;
  rewrite ?map_app in *; simpl in *;
  rewrite ?elem_of_app, ?elem_of_cons, ?elem_of_nil in *;
  rewrite ?length_app in *; simpl in *;
  intuition (try lia; eauto).

Lemma step_held_ta e s s' p :
  step e s = Some s' → (p < length (promises s))%nat →
  ¬ held_by_task_or_attempt s p → ¬ held_by_task_or_attempt s' p.
Proof.
  intros He Hp Hh. destruct e; unfold step in He.
  - apply (inj Some) in He as <-. unfold open, close. held_solver.
  - apply (inj Some) in He as <-. unfold close. held_solver.
  - apply (inj Some) in He as <-. unfold send, suspend. held_solver.
  - apply (inj Some) in He as <-. unfold listenLive, suspend. held_solver.
  - apply (inj Some) in He as <-. unfold kill.
    destruct (liveQueue s !! queryUuid); held_solver.
  - destruct (attempts s !! w) as [a|] eqn:Ha; [|done].
    apply (inj Some) in He as <-. unfold on_open, held_by_task_or_attempt.
    destruct (resolved a); simpl; [done|].
    by rewrite attempt_ready_mark.
  - destruct (attempts s !! w) as [a|] eqn:Ha; [|done].
    apply (inj Some) in He as <-. unfold on_error, held_by_task_or_attempt.
    destruct (resolved a); simpl; [done|].
    by rewrite attempt_ready_mark.
  - destruct (attempts s !! w) as [a|] eqn:Ha; [|done].
    apply (inj Some) in He as <-. unfold held_by_task_or_attempt in *.
    by destruct (on_close_frame s) as (-> & -> & _).
  - destruct (attempts s !! w) as [a|] eqn:Ha; [|done].
    apply (inj Some) in He as <-. unfold held_by_task_or_attempt in *.
    change (default s (on_message data s)) with (receive data s).
    rewrite receive_attempts.
    by destruct (receive_sizes data s) as (_ & _ & _ & ->).
  - destruct (timers s !! i); [|done].
    apply (inj Some) in He as <-. unfold open, close. held_solver.
  - destruct (tasks s !! i) as [t|] eqn:Hi; [|done]. simpl in He.
    destruct (runnable s t); [|done]. apply (inj Some) in He as <-.
    assert (¬ held_by_task_or_attempt (set_tasks (delete i (tasks s)) s) p) as H.
    { unfold held_by_task_or_attempt in *. simpl. rewrite !elem_of_app in *.
      intros [Hin|Hin]; [|tauto]. apply Hh. left.
      eapply elem_of_submseteq; [exact Hin|].
      apply sublist_submseteq, (fmap_sublist task_ret), sublist_delete. }
    destruct t as [aw m ps r|q r|aw q r|aw r]; simpl.
    + by destruct (from_option _ _ _).
    + done.
    + by destruct (rejected _ _).
    + by destruct (rejected _ _).
Qed.

Lemma step_queue_origin e s s' k r :
  step e s = Some s' → queue s' !! k = Some r →
  queue s !! k = Some r
  ∨ ∃ i aw method params,
      e = Resume i ∧ tasks s !! i = Some (TSend aw method params r)
      ∧ k = to_key (getIncrementalID (id_calls s)).
Proof.
  intros He. destruct e; unfold step in He.
  - apply (inj Some) in He as <-. by left.
  - apply (inj Some) in He as <-. by left.
  - apply (inj Some) in He as <-. by left.
  - apply (inj Some) in He as <-. by left.
  - apply (inj Some) in He as <-. unfold kill.
    destruct (liveQueue s !! queryUuid); by left.
  - destruct (attempts s !! w) as [a|]; [|done].
    apply (inj Some) in He as <-. unfold on_open.
    destruct (resolved a); by left.
  - destruct (attempts s !! w) as [a|]; [|done].
    apply (inj Some) in He as <-. unfold on_error.
    destruct (resolved a); by left.
  - destruct (attempts s !! w) as [a|]; [|done].
    apply (inj Some) in He as <-. unfold on_close.
    destruct (resolveClosed s); simpl; case_decide; simpl;
      by rewrite lookup_empty.
  - destruct (attempts s !! w) as [a|]; [|done].
    apply (inj Some) in He as <-. left. by eapply receive_queue.
  - destruct (timers s !! i); [|done].
    apply (inj Some) in He as <-. by left.
  - destruct (tasks s !! i) as [t|] eqn:Hi; [|done]. simpl in He.
    destruct (runnable s t); [|done]. apply (inj Some) in He as <-.
    destruct t as [aw m ps r'|q r'|aw q r'|aw r']; simpl.
    + destruct (from_option _ _ _); simpl; [by left|].
      rewrite lookup_insert. case_decide as Hk; [|by left].
      intros [= <-]. right. by exists i, aw, m, ps.
    + by left.
    + destruct (rejected _ _); by left.
    + destruct (rejected _ _); by left.
Qed.


Lemma step_resolveClosed e s s' p :
  step e s = Some s' → (p < length (promises s))%nat →
  resolveClosed s' = Some p →
  resolveClosed s = Some p ∧ length (attempts s') = length (attempts s).
Proof.
  intros He Hp. destruct e; unfold step in He.
  - apply (inj Some) in He as <-. unfold open, close. simpl.
    intros [= <-]. lia.
  - apply (inj Some) in He as <-. unfold close. simpl. intros [= <-]. lia.
  - apply (inj Some) in He as <-. done.
  - apply (inj Some) in He as <-. done.
  - apply (inj Some) in He as <-. unfold kill.
    by destruct (liveQueue s !! queryUuid).
  - destruct (attempts s !! w) as [a|]; [|done].
    apply (inj Some) in He as <-. unfold on_open.
    destruct (resolved a); simpl; [done|]. by rewrite length_insert.
  - destruct (attempts s !! w) as [a|]; [|done].
    apply (inj Some) in He as <-. unfold on_error.
    destruct (resolved a); simpl; [done|]. by rewrite length_insert.
  - destruct (attempts s !! w) as [a|]; [|done].
    apply (inj Some) in He as <-.
    by destruct (on_close_frame s) as (_ & -> & -> & _).
  - destruct (attempts s !! w) as [a|]; [|done].
    apply (inj Some) in He as <-.
    change (default s (on_message data s)) with (receive data s).
    rewrite receive_attempts.
    by destruct (receive_sizes data s) as (_ & _ & -> & _).
  - destruct (timers s !! i); [|done].
    apply (inj Some) in He as <-. unfold open, close. simpl.
    intros [= <-]. lia.
  - destruct (tasks s !! i) as [t|] eqn:Hi; [|done]. simpl in He.
    destruct (runnable s t); [|done]. apply (inj Some) in He as <-.
    destruct t as [aw m ps r'|q r'|aw q r'|aw r']; simpl.
    + by destruct (from_option _ _ _).
    + done.
    + by destruct (rejected _ _).
    + by destruct (rejected _ _).
Qed.




Lemma wf_attempts_ws s : wf s → attempts s ≠ [] → is_Some (ws s).
Proof.
  intros Hwf Hne. destruct (ws s) eqn:Hws; [by eexists|].
  by apply (wf_opened s Hwf) in Hws.
Qed.

Lemma step_task_persists e s s' t :
  step e s = Some s' → t ∈ tasks s →
  t ∈ tasks s'
  ∨ ∃ i, e = Resume i ∧ tasks s !! i = Some t ∧ runnable s t = true.
Proof.
  intros He Ht. destruct e; unfold step in He.
  - apply (inj Some) in He as <-. left. unfold open, close. simpl.
    rewrite elem_of_app. by left.
  - apply (inj Some) in He as <-. left. unfold close. simpl.
    rewrite elem_of_app. by left.
  - apply (inj Some) in He as <-. left. simpl. rewrite elem_of_app. by left.
  - apply (inj Some) in He as <-. left. simpl. rewrite elem_of_app. by left.
  - apply (inj Some) in He as <-. left. unfold kill.
    destruct (liveQueue s !! queryUuid); simpl; rewrite !elem_of_app; tauto.
  - destruct (attempts s !! w) as [a|]; [|done].
    apply (inj Some) in He as <-. left. unfold on_open.
    by destruct (resolved a).
  - destruct (attempts s !! w) as [a|]; [|done].
    apply (inj Some) in He as <-. left. unfold on_error.
    by destruct (resolved a).
  - destruct (attempts s !! w) as [a|]; [|done].
    apply (inj Some) in He as <-. left.
    by destruct (on_close_frame s) as (-> & _).
  - destruct (attempts s !! w) as [a|]; [|done].
    apply (inj Some) in He as <-. left.
    change (default s (on_message data s)) with (receive data s).
    by destruct (receive_sizes data s) as (_ & _ & _ & ->).
  - destruct (timers s !! i); [|done].
    apply (inj Some) in He as <-. left. unfold open, close. simpl.
    rewrite elem_of_app. by left.
  - destruct (tasks s !! i) as [t'|] eqn:Hi; [|done]. simpl in He.
    destruct (runnable s t') eqn:Hr; [|done].
    apply (inj Some) in He as <-.
    assert (tasks (resume t' (set_tasks (delete i (tasks s)) s))
            = delete i (tasks s)) as ->.
    { destruct t' as [aw m ps r'|q r'|aw q r'|aw r']; simpl.
      - by destruct (from_option _ _ _).
      - done.
      - by destruct (rejected _ _).
      - by destruct (rejected _ _). }
    apply list_elem_of_lookup in Ht as [j Hj].
    destruct (decide (i = j)) as [->|Hne].
    + right. exists j. split_and!; [done|done|]. congruence.
    + left. apply list_elem_of_lookup.
      destruct (decide (j < i)%nat).
      * exists j. by rewrite list_lookup_delete_lt.
      * exists (pred j). rewrite list_lookup_delete_ge by lia.
        replace (S (pred j)) with j by lia. done.
Qed.

(** ** Closing without a transport *)

Lemma stranded_step e p s s' :
  step e s = Some s' → stranded p s → stranded p s'.
Proof.
  intros He (Hp & Hq & Hta & Hrc).
  assert (p < length (promises s))%nat as Hlt by by eapply lookup_lt_Some.
  assert (∀ (A : Type) (f : A → nat) (l : list A) i x,
            l !! i = Some x → f x ∈ map f l) as Hmem.
  { intros A f l i x Hx. apply list_elem_of_fmap. exists x.
    split; [done|]. by eapply list_elem_of_lookup_2. }
  assert (¬ fires e s p) as Hf.
  { unfold held_by_task_or_attempt in Hta. rewrite elem_of_app in Hta.
    destruct e; simpl; try (by intros []).
    - intros H. destruct H as (a & Ha & <-). eauto.
    - intros H. destruct H as (a & Ha & <-). eauto.
    - intros H. destruct H as [[a Ha] Hc]. rewrite (Hrc Hc) in Ha. done.
    - intros H. destruct H as (k & _ & Hk). by apply (Hq k).
    - intros H. destruct H as (t & Ht & <-). eauto. }
  split_and!.
  - by rewrite (step_promise _ _ _ _ He Hlt Hf).
  - intros k Hk.
    destruct (step_queue_origin _ _ _ _ _ He Hk)
      as [?|(i & aw & m & ps & _ & Hi & _)]; [by apply (Hq k)|].
    apply Hta. unfold held_by_task_or_attempt. rewrite elem_of_app. left.
    apply (Hmem _ task_ret _ _ _ Hi).
  - by apply (step_held_ta _ _ _ p He Hlt).
  - intros Hc'. destruct (step_resolveClosed _ _ _ _ He Hlt Hc') as [Hc Hlen].
    rewrite (Hrc Hc) in Hlen. by apply nil_length_inv in Hlen.
Qed.

Lemma stranded_run es p t s s' :
  run es s = Some s' → stranded p s → t ∈ tasks s →
  (∀ s0, runnable s0 t = true → settled s0 p = true) →
  stranded p s' ∧ t ∈ tasks s'.
Proof.
  intros Hrun Hs Ht Hwait. revert s Hrun Hs Ht.
  induction es as [|e es IH]; intros s Hrun Hs Ht.
  - by injection Hrun as <-.
  - rewrite run_cons in Hrun.
    destruct (step e s) as [s1|] eqn:He; [|done]. simpl in Hrun.
    apply (IH s1 Hrun).
    + by eapply stranded_step.
    + destruct (step_task_persists _ _ _ _ He Ht)
        as [?|(i & _ & _ & Hr)]; [done|].
      apply Hwait in Hr. destruct Hs as (Hp & _).
      unfold settled in Hr. by rewrite Hp in Hr.
Qed.

Lemma wf_allocated s p : wf s → p ∈ resolvers s → (p < length (promises s))%nat.
Proof. intros Hwf. apply (wf_alloc s Hwf). Qed.

(** C8, as the code has it.  In a reachable state without a transport,
    [close(code)] sets the status to [CLOSED], sends no close
    instruction, calls the [onClose] hook when supplied, and parks
    awaiting the fresh promise it stored in [closed].  Whatever happens
    afterwards, that promise stays pending, so the parked call stays
    parked and the promise it returned stays pending: the call never
    returns. *)
Theorem close_without_transport_never_returns
    (s : State) (code : Z) :
  reachable s → ws s = None →
  let ret := fst (close code s) in
  let s1 := snd (close code s) in
  let p := length (promises s) in
  status s1 = CLOSED
  ∧ out s1 = out s ++ (if onClose (hooks s) then [HookInvoked HClose] else [])
  ∧ closed s1 = Some p
  ∧ resolveClosed s1 = Some p
  ∧ tasks s1 = tasks s ++ [TClose p ret]
  ∧ ∀ es s2, run es s1 = Some s2 →
      promises s2 !! p = Some Pending
      ∧ TClose p ret ∈ tasks s2
      ∧ promises s2 !! ret = Some Pending.
Proof.
  intros Hreach Hws ret s1 p.
  pose proof (reachable_wf s Hreach) as Hwf.
  pose proof (wf_opened s Hwf Hws) as Hnil.
  assert (reachable s1) as Hreach1.
  { by apply (reachable_step (CallClose code) s). }
  split_and!.
  - done.
  - unfold s1. rewrite close_out. unfold close_effects. by rewrite Hws.
  - done.
  - done.
  - done.
  - intros es s2 Hrun.
    assert (stranded p s1) as Hs.
    { subst s1 p ret.
      unfold stranded, close, held_by_task_or_attempt. simpl.
      split_and!.
      - rewrite lookup_app_l by (rewrite length_app; simpl; lia).
        apply lookup_snoc.
      - intros k Hk.
        assert (length (promises s) ∈ resolvers s) as Hin.
        { unfold resolvers. rewrite elem_of_app. left.
          apply elem_of_queue_rets. by exists k. }
        apply (wf_allocated s _ Hwf) in Hin. lia.
      - rewrite Hnil, map_app. simpl. rewrite app_nil_r, elem_of_app.
        rewrite list_elem_of_singleton, length_app. simpl.
        intros [Hin|?]; [|lia].
        assert (length (promises s) ∈ resolvers s) as Hin'.
        { unfold resolvers. rewrite !elem_of_app. tauto. }
        apply (wf_allocated s _ Hwf) in Hin'. lia.
      - done. }
    destruct (stranded_run es p (TClose p ret) s1 s2 Hrun Hs)
      as [(Hp & _) Ht]; [|done|].
    { subst s1 ret. unfold close. simpl. rewrite elem_of_app. right.
      by apply list_elem_of_singleton. }
    split_and!; [done|done|].
    apply (wf_pending s2).
    + eapply reachable_wf, reachable_run; [exact Hreach1|exact Hrun].
    + rewrite elem_of_app. right. apply list_elem_of_fmap.
      by exists (TClose p ret).
Qed.

(** ** Requests, closing and reconnecting: what follows from the code *)

Lemma stranded_forever es p s s' :
  run es s = Some s' → stranded p s → stranded p s'.
Proof.
  revert s. induction es as [|e es IH]; intros s Hrun Hs.
  - by injection Hrun as <-.
  - rewrite run_cons in Hrun.
    destruct (step e s) as [s1|] eqn:He; [|done].
    eapply IH; [exact Hrun|]. by eapply stranded_step.
Qed.

Lemma wf_queue_not_held s k r :
  wf s → queue s !! k = Some r →
  ¬ held_by_task_or_attempt s r ∧ resolveClosed s ≠ Some r.
Proof.
  intros Hwf Hk.
  assert (r ∈ queue_rets s) as Hin by (apply elem_of_queue_rets; eauto).
  pose proof (wf_nodup s Hwf) as Hnd. unfold resolvers in Hnd.
  apply NoDup_app in Hnd as (_ & Hdisj & _). specialize (Hdisj r Hin).
  rewrite (assoc_L (++)), elem_of_app in Hdisj. split.
  - intros Hheld. apply Hdisj. by left.
  - intros Hc. apply Hdisj. right. rewrite Hc. simpl.
    by apply list_elem_of_singleton.
Qed.

Lemma on_close_maps s :
  queue (on_close s) = ∅
  ∧ liveQueue (on_close s) = ∅
  ∧ unprocessedLiveResponses (on_close s) = ∅.
Proof.
  unfold on_close. destruct (resolveClosed s); simpl; by case_decide.
Qed.

(** X1.  A request still registered when a transport closes
    is lost.  The close listener empties the map without calling the
    continuation, and from then on nothing holds it: the promise [send]
    returned stays pending whatever happens next, a late frame carrying
    its identifier included. *)
Theorem request_registered_at_close_never_settles
    (s : State) (w : ws_id) (k : string) (r : promise_id) :
  reachable s → is_Some (attempts s !! w) → queue s !! k = Some r →
  promises s !! r = Some Pending
  ∧ ∀ es s', run (WsClose w :: es) s = Some s' →
             promises s' !! r = Some Pending
             ∧ ∀ k', queue s' !! k' ≠ Some r.
Proof.
  intros Hreach Hw Hk. pose proof (reachable_wf s Hreach) as Hwf.
  pose proof (queue_entry_pending s k r Hwf Hk) as Hp.
  destruct (wf_queue_not_held s k r Hwf Hk) as [Hheld Hrc].
  split; [done|]. intros es s' Hrun.
  rewrite run_cons, (step_WsClose w s Hw) in Hrun. simpl in Hrun.
  assert (stranded r (on_close s)) as Hs.
  { destruct (on_close_frame s) as (Ht & Ha & Hc & _).
    unfold stranded, held_by_task_or_attempt. rewrite Ht, Ha, Hc.
    split_and!; [|by intros k'; destruct (on_close_maps s) as (-> & _)|done|done].
    assert (r < length (promises s))%nat as Hlt by by eapply lookup_lt_Some.
    rewrite <- Hp. apply (step_promise (WsClose w) s); [|done|].
    - by apply step_WsClose.
    - simpl. by intros [_ ?]. }
  by destruct (stranded_forever es r _ s' Hrun Hs) as (? & ? & _).
Qed.

Lemma close_resolveClosed reason s :
  resolveClosed (snd (close reason s)) = Some (length (promises s)).
Proof. done. Qed.

Lemma open_resolveClosed s :
  resolveClosed (snd (open s)) = Some (length (promises s)).
Proof. done. Qed.

Lemma unallocated_not_held s p :
  wf s → (length (promises s) ≤ p)%nat →
  (∀ k, queue s !! k ≠ Some p) ∧ ¬ held_by_task_or_attempt s p.
Proof.
  intros Hwf Hle. split.
  - intros k Hk.
    assert (p ∈ resolvers s) as Hin.
    { unfold resolvers. rewrite elem_of_app. left.
      apply elem_of_queue_rets. by exists k. }
    apply (wf_allocated s _ Hwf) in Hin. lia.
  - unfold held_by_task_or_attempt. intros Hin.
    assert (p ∈ resolvers s) as Hin'.
    { unfold resolvers. rewrite !elem_of_app. rewrite elem_of_app in Hin.
      tauto. }
    apply (wf_allocated s _ Hwf) in Hin'. lia.
Qed.

Lemma close_frame reason s :
  let p := length (promises s) in
  fst (close reason s) = S p
  ∧ promises (snd (close reason s)) = promises s ++ [Pending; Pending]
  ∧ tasks (snd (close reason s)) = tasks s ++ [TClose p (S p)]
  ∧ closed (snd (close reason s)) = Some p
  ∧ attempts (snd (close reason s)) = attempts s
  ∧ queue (snd (close reason s)) = queue s.
Proof.
  assert (length (promises s ++ [Pending]) = S (length (promises s))) as Hl.
  { rewrite length_app. simpl. lia. }
  intros p. split; [exact Hl|]. split.
  { unfold close. simpl. by rewrite <- (assoc_L (++)). }
  split.
  { unfold close. simpl. by rewrite Hl. }
  repeat split; reflexivity.
Qed.

(** X2.  A [close] call overtaken by another one never
    returns.  When, right after [close(reason)], [close] runs again (a
    second [close], or [open()], called directly or by the reconnect
    timer), [resolveClosed] is overwritten with the resolver of a new
    promise; the promise the first call awaits has no resolver left, so
    it stays pending whatever happens next, the first call stays parked
    and the promise it returned never settles. *)
Theorem close_overtaken_by_the_next_close_never_returns
    (s s2 : State) (reason : Z) (e : Event) :
  reachable s → runs_close e = true →
  let ret := fst (close reason s) in
  let s1 := snd (close reason s) in
  let p := length (promises s) in
  step e s1 = Some s2 →
  closed s1 = Some p
  ∧ tasks s1 = tasks s ++ [TClose p ret]
  ∧ resolveClosed s2 = Some (length (promises s1))
  ∧ ∀ es s3, run es s2 = Some s3 →
      promises s3 !! p = Some Pending
      ∧ TClose p ret ∈ tasks s3
      ∧ promises s3 !! ret = Some Pending.
Proof.
  intros Hreach He ret s1 p Hstep.
  pose proof (reachable_wf s Hreach) as Hwf.
  assert (reachable s1) as Hreach1
    by by apply (reachable_step (CallClose reason) s).
  destruct (close_frame reason s) as (Hret & Hps & Hts & Hcl & Hat & Hqu).
  fold ret s1 p in Hret, Hps, Hts, Hcl, Hat, Hqu.
  assert (p = length (promises s)) as Hpdef by reflexivity.
  clearbody ret s1 p. subst ret.
  assert (reachable s2) as Hreach2 by by eapply reachable_step.
  assert (resolveClosed s2 = Some (length (promises s1))) as Hrc.
  { destruct e; try done.
    - unfold step in Hstep. apply (inj Some) in Hstep.
      rewrite <- Hstep. apply open_resolveClosed.
    - unfold step in Hstep. apply (inj Some) in Hstep.
      rewrite <- Hstep. apply close_resolveClosed.
    - destruct (timers s1 !! i) as [d|] eqn:Hi;
        [|by unfold step in Hstep; rewrite Hi in Hstep].
      rewrite (step_TimerFires i d s1 Hi) in Hstep.
      apply (inj Some) in Hstep. rewrite <- Hstep.
      apply (open_resolveClosed (set_timers (delete i (timers s1)) s1)). }
  split_and!; [exact Hcl|exact Hts|exact Hrc|].
  intros es s3 Hrun.
  assert (p < length (promises s1))%nat as Hlt.
  { rewrite Hps, length_app. simpl. lia. }
  destruct (unallocated_not_held s p Hwf) as [Hq Hheld]; [lia|].
  assert (TClose p (S p) ∈ tasks s1) as Hin1.
  { rewrite Hts, elem_of_app. right. by apply list_elem_of_singleton. }
  assert (stranded p s2) as Hs.
  { unfold stranded. split_and!.
    - rewrite (step_promise e s1 s2 p Hstep Hlt).
      + rewrite Hps, Hpdef. by apply list_lookup_middle.
      + destruct e; try done; simpl; tauto.
    - intros k Hk.
      destruct (step_queue_origin e s1 s2 k p Hstep Hk)
        as [Hk1|(i & aw & m & ps & -> & _)]; [|done].
      rewrite Hqu in Hk1. by apply (Hq k).
    - apply (step_held_ta e s1 s2 p Hstep Hlt).
      unfold held_by_task_or_attempt in *.
      rewrite Hts, Hat, map_app, <- (assoc_L (++)), elem_of_app. simpl.
      intros [Hin|Hin].
      + apply Hheld. rewrite elem_of_app. by left.
      + apply elem_of_cons in Hin as [Heq|Hin]; [lia|].
        apply Hheld. rewrite elem_of_app. by right.
    - rewrite Hrc. intros Heq. apply (inj Some) in Heq. lia. }
  destruct (stranded_run es p (TClose p (S p)) s2 s3 Hrun Hs)
    as [(Hp & _) Ht]; [| |].
  - destruct (step_task_persists e s1 s2 (TClose p (S p)) Hstep Hin1)
      as [?|(i & -> & _)]; done.
  - intros s0 Hr. exact Hr.
  - split_and!; [exact Hp|exact Ht|].
    apply (wf_pending s3).
    + eapply reachable_wf, reachable_run; [exact Hreach2|exact Hrun].
    + rewrite elem_of_app. right. apply list_elem_of_fmap.
      by exists (TClose p (S p)).
Qed.

Lemma open_promises s :
  promises (snd (open s)) = promises s ++ [Pending; Pending; Pending].
Proof. unfold open, close. simpl. by rewrite <- !(assoc_L (++)). Qed.

Lemma open_ready s :
  ready (snd (open s)) = Some (S (S (length (promises s)))).
Proof.
  unfold open, close. simpl. rewrite !length_app. simpl. f_equal. lia.
Qed.

Lemma open_attempts s :
  attempts (snd (open s))
  = attempts s ++ [mkAttempt false (S (S (length (promises s))))].
Proof.
  unfold open, close. simpl. rewrite !length_app. simpl. do 3 f_equal. lia.
Qed.

Lemma open_frame s :
  let s' := snd (open s) in
  status s' = CLOSED
  ∧ ws s' = Some (length (attempts s))
  ∧ attempts s'
    = attempts s ++ [mkAttempt false (S (S (length (promises s))))]
  ∧ ready s' = Some (S (S (length (promises s))))
  ∧ promises s' = promises s ++ [Pending; Pending; Pending]
  ∧ timers s' = timers s
  ∧ hooks s' = hooks s
  ∧ queue s' = queue s
  ∧ liveQueue s' = liveQueue s
  ∧ unprocessedLiveResponses s' = unprocessedLiveResponses s.
Proof.
  intros s'. split; [reflexivity|]. split; [reflexivity|].
  split; [apply open_attempts|]. split; [apply open_ready|].
  split; [apply open_promises|]. repeat split; reflexivity.
Qed.

Lemma on_close_promises s :
  promises (on_close s)
  = match resolveClosed s with
    | Some p => settle_in p (Fulfilled None) (promises s)
    | None => promises s
    end.
Proof.
  unfold on_close. destruct (resolveClosed s); simpl; by case_decide.
Qed.

Lemma on_close_hooks s : hooks (on_close s) = hooks s ∧ ws (on_close s) = ws s
  ∧ ready (on_close s) = ready s.
Proof.
  unfold on_close. destruct (resolveClosed s); simpl; by case_decide.
Qed.

Lemma resume_TClose_fulfilled s ts p ret v :
  promises s !! p = Some (Fulfilled v) →
  promises s !! ret = Some Pending →
  let s' := resume (TClose p ret) (set_tasks ts s) in
  promises s' !! ret = Some (Fulfilled None) ∧ status s' = status s.
Proof.
  intros Hp Hr. simpl. unfold rejected. simpl. rewrite Hp. simpl.
  split; [|done]. by apply settle_in_pending.
Qed.

(** X3.  With a transport, [close(reason)] asks that
    transport to close with the code and the text [socketClosureReason]
    holds for it ([CLOSE_NORMAL] for 1000, none for any other code),
    calls the [onClose] hook when supplied, and is parked.  The next
    close event of any transport resolves the promise it awaits: the
    status is still [CLOSED], no reconnection is scheduled, the call can
    resume, and the promise it returned is fulfilled. *)
Theorem close_returns_once_a_transport_closes
    (s : State) (reason : Z) (w w' : ws_id) :
  ws s = Some w → is_Some (attempts s !! w') →
  let ret := fst (close reason s) in
  let s1 := snd (close reason s) in
  out s1
  = out s ++ WsCloseRequested w reason (socketClosureReason reason)
        :: (if onClose (hooks s) then [HookInvoked HClose] else [])
  ∧ step (Resume (length (tasks s))) s1 = None
  ∧ ∃ s2 s3,
      step (WsClose w') s1 = Some s2
      ∧ status s2 = CLOSED
      ∧ timers s2 = timers s
      ∧ step (Resume (length (tasks s))) s2 = Some s3
      ∧ promises s3 !! ret = Some (Fulfilled None)
      ∧ status s3 = CLOSED.
Proof.
  intros Hws Hw' ret s1.
  set (p := length (promises s)).
  assert (promises s1 = promises s ++ [Pending; Pending]) as Hps.
  { unfold s1, close. simpl. by rewrite <- (assoc_L (++)). }
  assert (tasks s1 = tasks s ++ [TClose p ret]) as Hts by done.
  assert (ret = S p) as Hret.
  { unfold ret, close, p. simpl. rewrite length_app. simpl. lia. }
  assert (promises s1 !! p = Some Pending) as Hp.
  { rewrite Hps. by apply list_lookup_middle. }
  assert (promises s1 !! ret = Some Pending) as Hr.
  { rewrite Hps, Hret. rewrite (cons_middle Pending), (assoc_L (++)).
    apply list_lookup_middle. rewrite length_app. simpl. unfold p. lia. }
  split_and!.
  - unfold s1. rewrite close_out. unfold close_effects. by rewrite Hws.
  - unfold step. rewrite Hts, lookup_snoc. simpl.
    unfold settled. by rewrite Hp.
  - exists (on_close s1).
    assert (promises (on_close s1)
            = settle_in p (Fulfilled None) (promises s1)) as Hps2.
    { by rewrite on_close_promises. }
    destruct (on_close_frame s1) as (Ht2 & _).
    assert (runnable (on_close s1) (TClose p ret) = true) as Hrun.
    { simpl. unfold settled.
      by rewrite Hps2, (settle_in_pending _ _ _ Hp). }
    eexists. split_and!.
    + apply step_WsClose. by unfold s1.
    + by rewrite on_close_status.
    + rewrite on_close_timers. by case_decide.
    + apply step_Resume; [|exact Hrun]. rewrite Ht2, Hts. apply lookup_snoc.
    + apply (resume_TClose_fulfilled (on_close s1) _ p ret None).
      * by rewrite Hps2, (settle_in_pending _ _ _ Hp).
      * rewrite Hps2, settle_in_ne by lia. exact Hr.
    + destruct (resume_TClose_fulfilled (on_close s1)
                  (delete (length (tasks s)) (tasks (on_close s1)))
                  p ret None) as [_ ->].
      * by rewrite Hps2, (settle_in_pending _ _ _ Hp).
      * rewrite Hps2, settle_in_ne by lia. exact Hr.
      * by rewrite on_close_status.
Qed.

Lemma receive_connection frame s :
  status (receive frame s) = status s
  ∧ ws (receive frame s) = ws s
  ∧ ready (receive frame s) = ready s
  ∧ timers (receive frame s) = timers s
  ∧ hooks (receive frame s) = hooks s.
Proof.
  unfold receive, on_message.
  destruct (isLiveNotification frame) as [[]|]; simpl; [|..|done].
  - unfold handleLiveBatch. by destruct (liveQueue s !! _).
  - destruct (get_field "id" _) as [id|]; [|done].
    destruct (truthy id); [|done]. by destruct (queue s !! to_key id).
Qed.

Lemma resume_connection t s :
  status (resume t s) = status s
  ∧ ws (resume t s) = ws s
  ∧ ready (resume t s) = ready s
  ∧ timers (resume t s) = timers s
  ∧ attempts (resume t s) = attempts s
  ∧ hooks (resume t s) = hooks s.
Proof.
  destruct t as [aw m ps r'|q r'|aw q r'|aw r']; simpl.
  - by destruct (from_option _ _ _).
  - done.
  - by destruct (rejected _ _).
  - by destruct (rejected _ _).
Qed.

Lemma step_timers e s s' :
  step e s = Some s' → timer_fires e = false →
  timers s `prefix_of` timers s'.
Proof.
  intros He Hne. destruct e; try done; unfold step in He.
  - by apply (inj Some) in He as <-.
  - by apply (inj Some) in He as <-.
  - by apply (inj Some) in He as <-.
  - by apply (inj Some) in He as <-.
  - apply (inj Some) in He as <-. unfold kill.
    by destruct (liveQueue s !! queryUuid).
  - destruct (attempts s !! w) as [a|]; [|done].
    apply (inj Some) in He as <-. unfold on_open.
    by destruct (resolved a).
  - destruct (attempts s !! w) as [a|]; [|done].
    apply (inj Some) in He as <-. unfold on_error.
    by destruct (resolved a).
  - destruct (attempts s !! w) as [a|]; [|done].
    apply (inj Some) in He as <-. rewrite on_close_timers.
    case_decide; [done|]. by apply prefix_app_r.
  - destruct (attempts s !! w) as [a|]; [|done].
    apply (inj Some) in He as <-.
    change (default s (on_message data s)) with (receive data s).
    by destruct (receive_connection data s) as (_ & _ & _ & -> & _).
  - destruct (tasks s !! i) as [t|] eqn:Hi; [|done]. simpl in He.
    destruct (runnable s t); [|done]. apply (inj Some) in He as <-.
    by destruct (resume_connection t (set_tasks (delete i (tasks s)) s))
      as (_ & _ & _ & -> & _).
Qed.

Lemma run_timers es s s' :
  run es s = Some s' → forallb (λ e, negb (timer_fires e)) es = true →
  timers s `prefix_of` timers s'.
Proof.
  revert s. induction es as [|e es IH]; intros s Hrun Hes.
  - by injection Hrun as <-.
  - rewrite run_cons in Hrun. simpl in Hes.
    apply andb_prop in Hes as [He1 Hes].
    destruct (step e s) as [s1|] eqn:He; [|done].
    transitivity (timers s1).
    + eapply step_timers; [exact He|]. by destruct (timer_fires e).
    + by apply IH.
Qed.

(** X4.  A scheduled reconnection cannot be cancelled.  No
    method and no listener removes a timer: whatever happens short of
    the timer firing, a [close] call included, the timer is still
    pending, and when it fires [open()] runs: the current transport is
    asked to close, the [onClose] hook is called when supplied, and a
    new transport is created. *)
Theorem scheduled_reconnect_is_never_cancelled
    (es : list Event) (s s' : State) (i : nat) (d : Z) :
  run es s = Some s' →
  forallb (λ e, negb (timer_fires e)) es = true →
  timers s !! i = Some d →
  timers s' !! i = Some d
  ∧ ∃ s'',
      step (TimerFires i) s' = Some s''
      ∧ out s'' = out s' ++ close_effects 1000 s'
                    ++ [WsCreated (length (attempts s'))]
      ∧ ws s'' = Some (length (attempts s'))
      ∧ timers s'' = delete i (timers s').
Proof.
  intros Hrun Hes Hi.
  assert (timers s' !! i = Some d) as Hi'.
  { destruct (run_timers es s s' Hrun Hes) as [k ->].
    by apply lookup_app_l_Some. }
  split; [exact Hi'|].
  exists (snd (open (set_timers (delete i (timers s')) s'))).
  destruct (open_frame (set_timers (delete i (timers s')) s'))
    as (_ & Hws & _ & _ & _ & Hti & _).
  split_and!.
  - by apply (step_TimerFires i d).
  - apply (open_out (set_timers (delete i (timers s')) s')).
  - exact Hws.
  - exact Hti.
Qed.

Lemma on_error_unresolved w a s :
  resolved a = false →
  promises s !! attempt_ready a = Some Pending →
  let s' := on_error w a s in
  status s' = CLOSED
  ∧ timers s' = timers s
  ∧ promises s' = <[attempt_ready a := Rejected]> (promises s)
  ∧ out s' = out s
             ++ (if onError (hooks s) then [HookInvoked HError] else [])
  ∧ liveQueue s' = liveQueue s
  ∧ resolveClosed s' = resolveClosed s
  ∧ length (attempts s') = length (attempts s).
Proof.
  intros Hr Hp. unfold on_error. rewrite Hr. simpl.
  unfold settle_in. simpl. rewrite Hp. by rewrite length_insert.
Qed.

Lemma on_error_frame w a s :
  let s' := on_error w a s in
  tasks s' = tasks s ∧ queue s' = queue s ∧ id_calls s' = id_calls s
  ∧ ready s' = ready s ∧ ws s' = ws s ∧ hooks s' = hooks s
  ∧ unprocessedLiveResponses s' = unprocessedLiveResponses s.
Proof. unfold on_error. by destruct (resolved a). Qed.

(** X5.  A transport that fails before it opens is not
    retried.  [open()], called directly or by the reconnect timer,
    leaves the status [CLOSED], because it starts with [close(1000)];
    when the new transport then raises an error and closes, its [ready]
    promise is rejected, the [onError] hook is called, and the close
    listener, finding the status [CLOSED], sets no timer: the
    reconnection is given up. *)
Theorem transport_failing_before_it_opens_is_not_retried
    (s s1 : State) (e : Event) :
  runs_open e = true → step e s = Some s1 →
  let w := length (attempts s) in
  let p := S (S (length (promises s))) in
  status s1 = CLOSED
  ∧ ws s1 = Some w
  ∧ ready s1 = Some p
  ∧ ∃ s2 s3,
      step (WsError w) s1 = Some s2
      ∧ step (WsClose w) s2 = Some s3
      ∧ promises s3 !! p = Some Rejected
      ∧ status s3 = CLOSED
      ∧ timers s3 = timers s1
      ∧ out s3 = out s1
                 ++ (if onError (hooks s) then [HookInvoked HError] else [])
                 ++ notify_all (all_listeners s) SOCKET_CLOSED.
Proof.
  intros He Hstep w p.
  assert (∃ s0, s1 = snd (open s0)
                ∧ attempts s0 = attempts s ∧ promises s0 = promises s
                ∧ hooks s0 = hooks s ∧ liveQueue s0 = liveQueue s)
    as (s0 & Hs1 & Ha0 & Hp0 & Hh0 & Hl0).
  { destruct e; try done; unfold step in Hstep.
    - apply (inj Some) in Hstep. by exists s.
    - destruct (timers s !! i) as [d|]; [|done].
      apply (inj Some) in Hstep.
      by exists (set_timers (delete i (timers s)) s). }
  clear Hstep He.
  destruct (open_frame s0)
    as (Hst & Hws & Hat & Hre & Hps & Hti & Hho & _ & Hlq & _).
  pose proof (open_resolveClosed s0) as Hrc.
  rewrite <- Hs1 in Hst, Hws, Hat, Hre, Hps, Hti, Hho, Hlq, Hrc.
  rewrite Ha0 in Hws, Hat. rewrite Hp0 in Hat, Hre, Hps, Hrc.
  rewrite Hh0 in Hho. rewrite Hl0 in Hlq.
  clear Hs1 Ha0 Hp0 Hh0 Hl0 Hti s0.
  fold w in Hws. fold p in Hat, Hre.
  set (a := mkAttempt false p) in *.
  assert (attempts s1 !! w = Some a) as Hw.
  { rewrite Hat. apply lookup_snoc. }
  assert (promises s1 !! p = Some Pending) as Hp.
  { rewrite Hps. rewrite (cons_middle Pending), (cons_middle Pending [_]).
    rewrite !(assoc_L (++)). apply list_lookup_middle.
    rewrite !length_app. simpl. unfold p. lia. }
  split_and!; [exact Hst|exact Hws|exact Hre|].
  assert (step (WsError w) s1 = Some (on_error w a s1)) as He1.
  { unfold step. by rewrite Hw. }
  destruct (on_error_unresolved w a s1 eq_refl Hp)
    as (Hst2 & Hti2 & Hps2 & Hout2 & Hlq2 & Hrc2 & Hat2).
  set (s2 := on_error w a s1) in *. clearbody s2.
  exists s2, (on_close s2).
  assert (is_Some (attempts s2 !! w)) as Hw2.
  { apply lookup_lt_is_Some. rewrite Hat2. by eapply lookup_lt_Some. }
  split_and!.
  - exact He1.
  - by apply step_WsClose.
  - rewrite on_close_promises, Hrc2, Hrc.
    rewrite settle_in_ne by (unfold p; lia).
    rewrite Hps2. apply list_lookup_insert_eq. by eapply lookup_lt_Some.
  - by rewrite on_close_status, Hst2.
  - rewrite on_close_timers, Hst2. by case_decide.
  - rewrite on_close_out, Hout2. unfold reconnect_effects, all_listeners.
    rewrite Hst2, Hlq2, Hlq, Hho. case_decide; [|done].
    by rewrite app_nil_r, (assoc_L (++)).
Qed.

Lemma send_frame method params s :
  let p := length (promises s) in
  fst (send method params s) = p
  ∧ promises (snd (send method params s)) = promises s ++ [Pending]
  ∧ tasks (snd (send method params s))
    = tasks s ++ [TSend (ready s) method params p]
  ∧ out (snd (send method params s)) = out s
  ∧ queue (snd (send method params s)) = queue s
  ∧ id_calls (snd (send method params s)) = id_calls s
  ∧ attempts (snd (send method params s)) = attempts s
  ∧ hooks (snd (send method params s)) = hooks s
  ∧ ready (snd (send method params s)) = ready s
  ∧ ws (snd (send method params s)) = ws s
  ∧ status (snd (send method params s)) = status s.
Proof. done. Qed.

Lemma resume_TSend_rejected s ts p method params ret :
  promises s !! p = Some Rejected →
  promises s !! ret = Some Pending →
  let s' := resume (TSend (Some p) method params ret) (set_tasks ts s) in
  promises s' = <[ret := Rejected]> (promises s)
  ∧ tasks s' = ts ∧ queue s' = queue s ∧ id_calls s' = id_calls s
  ∧ out s' = out s ∧ ready s' = ready s
  ∧ liveQueue s' = liveQueue s
  ∧ unprocessedLiveResponses s' = unprocessedLiveResponses s.
Proof.
  intros Hp Hr. simpl. unfold rejected. simpl. rewrite Hp. simpl.
  unfold settle_in. by rewrite Hr.
Qed.

(** X6.  A request issued while the transport is still
    connecting waits for it; when the attempt fails, the request is
    rejected without ever being made: no identifier is drawn, nothing is
    registered and nothing is written.  The same happens to every
    request issued afterwards, as long as [open()] is not called
    again. *)
Theorem send_is_rejected_when_the_attempt_fails
    (s : State) (w : ws_id) (a : Attempt)
    (method : string) (params : list json) :
  reachable s → attempts s !! w = Some a → resolved a = false →
  ready s = Some (attempt_ready a) →
  let ret := fst (send method params s) in
  let s1 := snd (send method params s) in
  step (Resume (length (tasks s))) s1 = None
  ∧ ∃ s2 s3,
      step (WsError w) s1 = Some s2
      ∧ step (Resume (length (tasks s))) s2 = Some s3
      ∧ promises s3 !! ret = Some Rejected
      ∧ queue s3 = queue s
      ∧ id_calls s3 = id_calls s
      ∧ out s3 = out s
                 ++ (if onError (hooks s) then [HookInvoked HError] else [])
      ∧ ∀ method' params',
          let ret' := fst (send method' params' s3) in
          let s4 := snd (send method' params' s3) in
          ∃ s5, step (Resume (length (tasks s3))) s4 = Some s5
                ∧ promises s5 !! ret' = Some Rejected
                ∧ queue s5 = queue s
                ∧ id_calls s5 = id_calls s
                ∧ out s5 = out s3.
Proof.
  intros Hreach Hw Hres Hready ret s1.
  pose proof (reachable_wf s Hreach) as Hwf.
  set (p := attempt_ready a) in *.
  assert (promises s !! p = Some Pending) as Hp
    by by apply (wf_attempts s Hwf w a Hw).
  assert (p < length (promises s))%nat as Hlt by by eapply lookup_lt_Some.
  destruct (send_frame method params s)
    as (Hret & Hps & Hts & Hout & Hqu & Hid & Hat & Hho & Hre & _).
  fold ret s1 in Hret, Hps, Hts, Hout, Hqu, Hid, Hat, Hho, Hre.
  rewrite Hready in Hts. clearbody ret s1. subst ret.
  set (n := length (tasks s)) in *. set (ret := length (promises s)) in *.
  assert (promises s1 !! p = Some Pending) as Hp1.
  { rewrite Hps. by apply lookup_app_l_Some. }
  assert (tasks s1 !! n = Some (TSend (Some p) method params ret)) as Hn.
  { rewrite Hts. apply lookup_snoc. }
  split.
  { unfold step. rewrite Hn. simpl. unfold settled. by rewrite Hp1. }
  assert (attempts s1 !! w = Some a) as Hw1 by by rewrite Hat.
  destruct (on_error_unresolved w a s1 Hres Hp1)
    as (_ & _ & Hps2 & Hout2 & _).
  destruct (on_error_frame w a s1) as (Hts2 & Hqu2 & Hid2 & Hre2 & _).
  assert (step (WsError w) s1 = Some (on_error w a s1)) as He1.
  { unfold step. by rewrite Hw1. }
  set (s2 := on_error w a s1) in *. clearbody s2. fold p in Hps2.
  assert (promises s2 !! p = Some Rejected) as Hp2.
  { rewrite Hps2. apply list_lookup_insert_eq. by eapply lookup_lt_Some. }
  assert (promises s2 !! ret = Some Pending) as Hr2.
  { rewrite Hps2, list_lookup_insert_ne by (unfold ret; lia).
    rewrite Hps. apply lookup_snoc. }
  destruct (resume_TSend_rejected s2 (delete n (tasks s2)) p method params
              ret Hp2 Hr2)
    as (Hps3 & Hts3 & Hqu3 & Hid3 & Hout3 & Hre3 & _).
  assert (step (Resume n) s2
          = Some (resume (TSend (Some p) method params ret)
                    (set_tasks (delete n (tasks s2)) s2))) as He2.
  { apply step_Resume; [by rewrite Hts2|].
    simpl. unfold settled. by rewrite Hp2. }
  set (s3 := resume _ _) in *. clearbody s3.
  exists s2, s3. split_and!.
  - exact He1.
  - exact He2.
  - rewrite Hps3. apply list_lookup_insert_eq. by eapply lookup_lt_Some.
  - by rewrite Hqu3, Hqu2.
  - by rewrite Hid3, Hid2.
  - by rewrite Hout3, Hout2, Hout, Hho.
  - intros method' params' ret' s4.
    assert (promises s3 !! p = Some Rejected) as Hp3.
    { rewrite Hps3, list_lookup_insert_ne by (unfold ret; lia). exact Hp2. }
    assert (ready s3 = Some p) as Hready3.
    { by rewrite Hre3, Hre2, Hre. }
    destruct (send_frame method' params' s3)
      as (Hret' & Hps' & Hts' & Hout' & Hqu' & Hid' & _).
    fold ret' s4 in Hret', Hps', Hts', Hout', Hqu', Hid'.
    rewrite Hready3 in Hts'. clearbody ret' s4. subst ret'.
    assert (promises s4 !! p = Some Rejected) as Hp4.
    { rewrite Hps'. by apply lookup_app_l_Some. }
    assert (promises s4 !! length (promises s3) = Some Pending) as Hr4.
    { rewrite Hps'. apply lookup_snoc. }
    destruct (resume_TSend_rejected s4
                (delete (length (tasks s3)) (tasks s4)) p method' params'
                (length (promises s3)) Hp4 Hr4)
      as (Hps5 & _ & Hqu5 & Hid5 & Hout5 & _).
    eexists. split_and!.
    + apply step_Resume; [rewrite Hts'; apply lookup_snoc|].
      simpl. unfold settled. by rewrite Hp4.
    + rewrite Hps5. apply list_lookup_insert_eq. by eapply lookup_lt_Some.
    + by rewrite Hqu5, Hqu', Hqu3, Hqu2.
    + by rewrite Hid5, Hid', Hid3, Hid2.
    + by rewrite Hout5, Hout'.
Qed.




(** ** Live queries *)








(** ** The open listener *)

Lemma on_open_frame w a s :
  let s' := on_open w a s in
  status s' = OPEN
  ∧ promises s'
    = (if resolved a then promises s
       else settle_in (attempt_ready a) (Fulfilled None) (promises s))
  ∧ attempts s'
    = (if resolved a then attempts s
       else <[w := mkAttempt true (attempt_ready a)]> (attempts s))
  ∧ out s' = out s
             ++ (if onConnect (hooks s) then [HookInvoked HConnect] else [])
  ∧ hooks s' = hooks s
  ∧ timers s' = timers s
  ∧ unprocessedLiveResponses s' = unprocessedLiveResponses s.
Proof. unfold on_open. by destruct (resolved a). Qed.

(** X11.  An open event sets the status to [OPEN] and calls the
    [onConnect] hook, each time it occurs; [ready] is settled the first
    time only, and only if it was still pending: an open event that
    follows an error leaves [ready] rejected although the status is
    [OPEN] again. *)
Theorem open_event_calls_the_hook_each_time_and_settles_ready_once
    (s : State) (w : ws_id) (a : Attempt) :
  reachable s → attempts s !! w = Some a →
  let p := attempt_ready a in
  let hook := if onConnect (hooks s) then [HookInvoked HConnect] else [] in
  ∃ s1 s2,
    step (WsOpen w) s = Some s1
    ∧ step (WsOpen w) s1 = Some s2
    ∧ status s1 = OPEN
    ∧ out s1 = out s ++ hook
    ∧ promises s1 = settle_in p (Fulfilled None) (promises s)
    ∧ (promises s !! p = Some Rejected → promises s1 !! p = Some Rejected)
    ∧ status s2 = OPEN
    ∧ out s2 = out s1 ++ hook
    ∧ promises s2 = promises s1.
Proof.
  intros Hreach Hw p hook. pose proof (reachable_wf s Hreach) as Hwf.
  destruct (on_open_frame w a s) as (Hst & Hps & Hat & Hout & Hho & _).
  assert (step (WsOpen w) s = Some (on_open w a s)) as He1.
  { unfold step. by rewrite Hw. }
  assert (promises (on_open w a s)
          = settle_in p (Fulfilled None) (promises s)) as Hps1.
  { rewrite Hps. destruct (resolved a) eqn:Hr; [|done].
    symmetry. apply settle_in_settled. intros Hp.
    apply (wf_attempts s Hwf w a Hw) in Hp. congruence. }
  assert (attempts (on_open w a s) !! w = Some (mkAttempt true p)) as Hw1.
  { rewrite Hat. destruct (resolved a) eqn:Hr.
    - rewrite Hw. by destruct a as [r pr]; simpl in *; subst.
    - apply list_lookup_insert_eq. by eapply lookup_lt_Some. }
  set (s1 := on_open w a s) in *. clearbody s1.
  destruct (on_open_frame w (mkAttempt true p) s1)
    as (Hst2 & Hps2 & _ & Hout2 & _).
  exists s1, (on_open w (mkAttempt true p) s1). split_and!.
  - exact He1.
  - unfold step. by rewrite Hw1.
  - exact Hst.
  - exact Hout.
  - exact Hps1.
  - intros Hp. rewrite Hps1, settle_in_settled; [done|]. by rewrite Hp.
  - exact Hst2.
  - rewrite Hout2. unfold hook. by rewrite Hho.
  - exact Hps2.
Qed.

(** ** Invariants of the connection fields *)

Lemma connected_init h : connected (init h).
Proof. by split. Qed.

Lemma connected_send method params s :
  connected s → connected (snd (send method params s)).
Proof. by intros []. Qed.

Lemma connected_closed s s0 :
  status s = CLOSED →
  unprocessedLiveResponses s = unprocessedLiveResponses s0 →
  connected s0 → connected s.
Proof.
  intros Hst Hbu [_ _ H]. split; try congruence. by rewrite Hbu.
Qed.

Lemma connected_step e s s' : connected s → step e s = Some s' → connected s'.
Proof.
  intros Hc He. pose proof Hc as [Htr Hti Hbu].
  destruct e; unfold step in He.
  - apply (inj Some) in He as <-. by apply (connected_closed _ s).
  - apply (inj Some) in He as <-. by apply (connected_closed _ s).
  - by apply (inj Some) in He as <-.
  - by apply (inj Some) in He as <-.
  - apply (inj Some) in He as <-. unfold kill.
    by destruct (liveQueue s !! queryUuid).
  - destruct (attempts s !! w) as [a|] eqn:Hw; [|done].
    apply (inj Some) in He as <-.
    destruct (on_open_frame w a s) as (_ & _ & Hat & _ & _ & Ht & Hb).
    split.
    + intros _ Hnil. rewrite Hat in Hnil.
      destruct (resolved a).
      * by rewrite Hnil in Hw.
      * apply (f_equal length) in Hnil. rewrite length_insert in Hnil.
        apply lookup_lt_Some in Hw. simpl in Hnil. lia.
    + by destruct (on_open_frame w a s) as (-> & _).
    + by rewrite Hb.
  - destruct (attempts s !! w) as [a|] eqn:Hw; [|done].
    apply (inj Some) in He as <-. apply (connected_closed _ s); [|  |done].
    + unfold on_error. by destruct (resolved a).
    + by destruct (on_error_frame w a s) as (_ & _ & _ & _ & _ & _ & ->).
  - destruct (attempts s !! w) as [a|] eqn:Hw; [|done].
    apply (inj Some) in He as <-.
    destruct (on_close_frame s) as (_ & Hat & _).
    destruct (on_close_maps s) as (_ & _ & Hb). split.
    + intros _. rewrite Hat. intros Hnil. by rewrite Hnil in Hw.
    + intros Hst. rewrite on_close_status in Hst.
      rewrite on_close_timers. case_decide; [done|].
      intros Hnil. by apply app_eq_nil in Hnil as [_ ?].
    + intros q l. by rewrite Hb.
  - destruct (attempts s !! w) as [a|] eqn:Hw; [|done].
    apply (inj Some) in He as <-.
    change (default s (on_message data s)) with (receive data s).
    destruct (receive_connection data s) as (Hst & _ & _ & Ht & _).
    split.
    + rewrite Hst, receive_attempts. exact Htr.
    + rewrite Hst, Ht. exact Hti.
    + intros q l.
      destruct (as_notification data) as [[q' payload]|] eqn:Hn.
      * rewrite (receive_notification data q' payload s Hn).
        destruct (liveQueue s !! q'); simpl; [apply Hbu|].
        destruct (decide (q = q')) as [->|Hne].
        -- rewrite lookup_insert_eq. intros [= <-].
           intros Hnil. by apply app_eq_nil in Hnil as [_ ?].
        -- rewrite lookup_insert_ne by done. apply Hbu.
      * unfold as_notification in Hn. unfold receive, on_message.
        destruct (isLiveNotification data) as [[]|]; [done| |apply Hbu].
        simpl. destruct (get_field "id" _) as [id|]; [|apply Hbu].
        destruct (truthy id); [|apply Hbu].
        destruct (queue s !! to_key id); apply Hbu.
  - destruct (timers s !! i); [|done].
    apply (inj Some) in He as <-. by apply (connected_closed _ s).
  - destruct (tasks s !! i) as [t|] eqn:Hi; [|done]. simpl in He.
    destruct (runnable s t); [|done]. apply (inj Some) in He as <-.
    destruct (resume_connection t (set_tasks (delete i (tasks s)) s))
      as (Hst & _ & _ & Ht & Hat & _).
    split.
    + rewrite Hst, Hat. exact Htr.
    + rewrite Hst, Ht. exact Hti.
    + intros q l.
      destruct t as [aw m ps r'|q' r'|aw q' r'|aw r']; simpl.
      * destruct (from_option _ _ _); apply Hbu.
      * intros Hl. apply lookup_delete_Some in Hl as [_ Hl]. by eapply Hbu.
      * destruct (rejected _ _); simpl; [apply Hbu|].
        intros Hl. apply lookup_delete_Some in Hl as [_ Hl]. by eapply Hbu.
      * destruct (rejected _ _); apply Hbu.
Qed.

Lemma reachable_connected s : reachable s → connected s.
Proof.
  intros (h & es & Hrun). pose proof (connected_init h) as Hc.
  revert Hrun Hc. generalize (init h). induction es as [|e es IH];
    intros s0 Hrun Hc.
  - by injection Hrun as <-.
  - rewrite run_cons in Hrun.
    destruct (step e s0) as [s1|] eqn:He; [|done].
    apply (IH s1 Hrun). by eapply connected_step.
Qed.

(** X12.  In every state the object can be in: unless the
    status is [CLOSED] a transport exists; while the status is
    [RECONNECTING] a reconnect timer is pending; and without a
    transport the status is [CLOSED], [ready] is absent and no timer is
    pending. *)
Theorem status_tells_whether_a_transport_or_a_timer_exists (s : State) :
  reachable s →
  (status s ≠ CLOSED → ∃ w, ws s = Some w ∧ is_Some (attempts s !! w))
  ∧ (status s = RECONNECTING → timers s ≠ [])
  ∧ (ws s = None → status s = CLOSED ∧ ready s = None ∧ timers s = []).
Proof.
  intros Hreach. pose proof (reachable_wf s Hreach) as Hwf.
  pose proof (reachable_connected s Hreach) as [Htr Hti _].
  split_and!.
  - intros Hst. destruct (wf_attempts_ws s Hwf (Htr Hst)) as [w Hw].
    exists w. split; [done|]. by apply (wf_ws s Hwf).
  - exact Hti.
  - intros Hws. pose proof (wf_opened s Hwf Hws) as Hnil.
    destruct (wf_unopened s Hwf Hnil) as (_ & Hr & Ht).
    split_and!; [|done|done].
    destruct (decide (status s = CLOSED)) as [|Hne]; [done|].
    by destruct (Htr Hne).
Qed.

(** X13.  In every state the object can be in: a listener list and
    a buffer are never empty, so testing an entry for truthiness is
    testing for its presence; every registered request is keyed by an
    identifier that was drawn earlier and stands for a promise that is
    still pending; and no promise is registered under two keys. *)
Theorem registered_entries_are_never_empty_and_are_pending (s : State) :
  reachable s →
  (∀ q cbs, liveQueue s !! q = Some cbs → cbs ≠ [])
  ∧ (∀ q l, unprocessedLiveResponses s !! q = Some l → l ≠ [])
  ∧ (∀ k r, queue s !! k = Some r →
       promises s !! r = Some Pending
       ∧ ∃ n, (n < id_calls s)%nat ∧ k = to_key (getIncrementalID n))
  ∧ (∀ k k' r, queue s !! k = Some r → queue s !! k' = Some r → k = k').
Proof.
  intros Hreach. pose proof (reachable_wf s Hreach) as Hwf.
  pose proof (reachable_connected s Hreach) as [_ _ Hbu].
  split_and!.
  - apply (wf_listeners s Hwf).
  - exact Hbu.
  - intros k r Hk. split; [by eapply queue_entry_pending|].
    by apply (wf_keys s Hwf k r).
  - intros k k' r Hk Hk'.
    pose proof (wf_nodup s Hwf) as Hnd. unfold resolvers in Hnd.
    apply NoDup_app in Hnd as (Hnd & _). unfold queue_rets in Hnd.
    apply elem_of_map_to_list in Hk, Hk'.
    apply list_elem_of_lookup in Hk as [i Hi], Hk' as [j Hj].
    assert (i = j) as ->.
    { apply (NoDup_lookup _ i j r Hnd).
      - by rewrite list_lookup_fmap, Hi.
      - by rewrite list_lookup_fmap, Hj. }
    congruence.
Qed.

(** ** Requests while reconnecting *)

Lemma resume_TSend_settled s ts p v method params ret :
  promises s !! p = Some (Fulfilled v) →
  let s' := resume (TSend (Some p) method params ret) (set_tasks ts s) in
  let id := getIncrementalID (id_calls s) in
  queue s' = <[to_key id := ret]> (queue s)
  ∧ out s' = out s ++ match ws s with
                      | Some w => [WsSent w (request id method params)]
                      | None => []
                      end
  ∧ promises s' = promises s
  ∧ status s' = status s
  ∧ ws s' = ws s.
Proof. intros Hp. simpl. unfold rejected. simpl. by rewrite Hp. Qed.

Lemma settle_in_other p q v ps :
  ps !! p ≠ Some Pending → settle_in q v ps !! p = ps !! p.
Proof.
  intros Hp. destruct (decide (q = p)) as [->|Hne].
  - by rewrite settle_in_settled.
  - by apply settle_in_ne.
Qed.

(** X14.  A request issued between a close event and the
    reconnection is written to the transport that has just closed.  The
    close listener leaves [ws] and [ready] as they were, so the request
    does not wait: it is registered, alone in the emptied map, and its
    frame goes to the old transport, while the status is
    [RECONNECTING]. *)
Theorem send_while_reconnecting_is_written_to_the_closed_transport
    (s : State) (w : ws_id) (p : promise_id) (v : option json)
    (method : string) (params : list json) :
  reachable s → ws s = Some w → status s ≠ CLOSED →
  ready s = Some p → promises s !! p = Some (Fulfilled v) →
  let id := getIncrementalID (id_calls s) in
  let ret := length (promises s) in
  ∃ s3,
    run [WsClose w; CallSend method params; Resume (length (tasks s))] s
    = Some s3
    ∧ status s3 = RECONNECTING
    ∧ ws s3 = Some w
    ∧ out s3 = out (on_close s) ++ [WsSent w (request id method params)]
    ∧ out (on_close s)
      = out s ++ notify_all (all_listeners s) SOCKET_CLOSED
          ++ TimeoutSet RECONNECT_DELAY
             :: (if onClose (hooks s) then [HookInvoked HClose] else [])
    ∧ queue s3 = {[ to_key id := ret ]}
    ∧ promises s3 !! ret = Some Pending.
Proof.
  intros Hreach Hws Hst Hready Hp id ret.
  pose proof (reachable_wf s Hreach) as Hwf.
  pose proof (wf_ws s Hwf w Hws) as Hw.
  pose proof (on_close_status s) as Hst1.
  pose proof (on_close_out s) as Hout1.
  pose proof (on_close_promises s) as Hps1.
  destruct (on_close_frame s) as (Hts1 & _ & _ & Hid1).
  destruct (on_close_maps s) as (Hqu1 & _).
  destruct (on_close_hooks s) as (_ & Hws1 & Hre1).
  rewrite decide_False in Hst1 by done.
  unfold reconnect_effects in Hout1. rewrite decide_False in Hout1 by done.
  assert (promises (on_close s) !! p = Some (Fulfilled v)) as Hp1.
  { rewrite Hps1. destruct (resolveClosed s); [|done].
    rewrite settle_in_other; [done|]. by rewrite Hp. }
  assert (length (promises (on_close s)) = ret) as Hlen1.
  { rewrite Hps1. destruct (resolveClosed s); [|done].
    apply length_settle_in. }
  pose proof (step_WsClose w s Hw) as He1.
  set (s1 := on_close s) in *. clearbody s1.
  destruct (send_frame method params s1)
    as (_ & Hps2 & Hts2 & Hout2 & Hqu2 & Hid2 & _ & _ & _ & Hws2 & Hst2).
  rewrite Hre1, Hready, Hlen1, Hts1 in Hts2.
  assert (step (CallSend method params) s1
          = Some (snd (send method params s1))) as He2 by done.
  set (s2 := snd (send method params s1)) in *. clearbody s2.
  assert (promises s2 !! p = Some (Fulfilled v)) as Hp2.
  { rewrite Hps2. by apply lookup_app_l_Some. }
  destruct (resume_TSend_settled s2
              (delete (length (tasks s)) (tasks s2)) p v method params ret
              Hp2)
    as (Hqu3 & Hout3 & Hps3 & Hst3 & Hws3).
  assert (step (Resume (length (tasks s))) s2
          = Some (resume (TSend (Some p) method params ret)
                    (set_tasks (delete (length (tasks s)) (tasks s2)) s2)))
    as He3.
  { apply step_Resume; [rewrite Hts2; apply lookup_snoc|].
    simpl. unfold settled. by rewrite Hp2. }
  set (s3 := resume _ _) in *. clearbody s3.
  exists s3. split_and!.
  - rewrite run_cons, He1.
    change (run [CallSend method params; Resume (length (tasks s))] s1
            = Some s3).
    rewrite run_cons, He2.
    change (run [Resume (length (tasks s))] s2 = Some s3).
    by rewrite run_cons, He3.
  - by rewrite Hst3, Hst2.
  - by rewrite Hws3, Hws2, Hws1.
  - rewrite Hout3, Hws2, Hws1, Hws, Hout2, Hid2, Hid1. done.
  - exact Hout1.
  - rewrite Hqu3, Hqu2, Hqu1, Hid2, Hid1. done.
  - rewrite Hps3, Hps2, <- Hlen1. apply lookup_snoc.
Qed.
(** ** Request correlation, for a well-behaved identifier generator *)

(** What the correlation theorems ask of [getIncrementalID]: an
    identifier is truthy, and no two calls return identifiers with the
    same property key. *)
Hypothesis ids_truthy : ∀ n, truthy (getIncrementalID n) = true.
Hypothesis ids_fresh :
  ∀ m n, to_key (getIncrementalID m) = to_key (getIncrementalID n) → m = n.



(** ** A request registered without a transport *)













End Scheduler.

(** ** The query builder *)

Section QueryBuilder.

Local Open Scope nat_scope.

Lemma string_app_nil_r (s : string) : s +:+ "" = s.
Proof.
  induction s as [|c s IH]; [done|].
  change (String c (s +:+ "") = String c s). by rewrite IH.
Qed.

Lemma string_app_assoc (s t u : string) : s +:+ (t +:+ u) = (s +:+ t) +:+ u.
Proof.
  induction s as [|c s IH]; [done|].
  change (String c (s +:+ (t +:+ u)) = String c ((s +:+ t) +:+ u)).
  by rewrite IH.
Qed.

Lemma concat_empty_sep_cons (x : string) (l : list string) :
  String.concat "" (x :: l) = x +:+ String.concat "" l.
Proof. destruct l; simpl; [by rewrite string_app_nil_r|done]. Qed.

Lemma concat_empty_sep_app (l k : list string) :
  String.concat "" (l ++ k) = String.concat "" l +:+ String.concat "" k.
Proof.
  induction l as [|x l IH]; [done|].
  rewrite <- app_comm_cons, !concat_empty_sep_cons, IH.
  apply string_app_assoc.
Qed.

Lemma binding_name_inj : Inj (=) (=) binding_name.
Proof.
  intros i j H. unfold binding_name in H.
  apply (inj (String.append _)) in H. by apply (inj pretty) in H.
Qed.

Lemma bindings_snoc {V} (query_raw : QueryRaw) (values : list V) (v : V) :
  bindings (surrealql query_raw (values ++ [v]))
  = <[binding_name (length values) := v]>
      (bindings (surrealql query_raw values)).
Proof.
  unfold surrealql. simpl. rewrite imap_app, foldl_app. simpl.
  by rewrite Nat.add_0_r.
Qed.

Lemma bindings_lookup_Some {V} (query_raw : QueryRaw) (values : list V) k v :
  bindings (surrealql query_raw values) !! k = Some v
  ↔ ∃ i, k = binding_name i ∧ values !! i = Some v.
Proof.
  induction values as [|x values IH] using rev_ind.
  - split; [done|]. by intros (i & _ & ?).
  - rewrite bindings_snoc, lookup_insert_Some, IH. split.
    + intros [[<- <-]|[Hne (i & -> & Hi)]].
      * exists (length values). split; [done|]. apply list_lookup_middle. done.
      * exists i. split; [done|]. by apply lookup_app_l_Some.
    + intros (i & -> & Hi).
      apply lookup_app_Some in Hi as [Hi|[Hlen Hi]].
      * right. split; [|by exists i].
        intros Heq. apply binding_name_inj in Heq.
        apply lookup_lt_Some in Hi. lia.
      * left. apply list_lookup_singleton_Some in Hi as [Hz <-].
        split; [|done]. f_equal. lia.
Qed.

(** X15.  The bindings handed to [PreparedQuery] hold the [i]-th value
    under the [i]-th binding name, and nothing else: a lookup of a
    binding name returns the value at that position (none past the
    end), every key is a binding name, and there is one entry per
    value. *)
Theorem surrealql_binds_each_value_under_its_name
    {V : Type} (query_raw : QueryRaw) (values : list V) :
  let b := bindings (surrealql query_raw values) in
  (∀ i, b !! binding_name i = values !! i)
  ∧ (∀ k v, b !! k = Some v → ∃ i, k = binding_name i ∧ values !! i = Some v)
  ∧ size b = length values.
Proof.
  intros b. subst b. split_and!.
  - intros i. apply option_eq. intros v.
    rewrite bindings_lookup_Some. split.
    + by intros (j & ->%binding_name_inj & Hj).
    + intros Hi. by exists i.
  - intros k v. by apply bindings_lookup_Some.
  - induction values as [|x values IH] using rev_ind; [done|].
    rewrite bindings_snoc, length_app.
    rewrite map_size_insert_None.
    { rewrite IH. simpl. lia. }
    destruct (bindings _ !! _) as [v|] eqn:Hv; [|done].
    apply bindings_lookup_Some in Hv as (j & Heq%binding_name_inj & Hj).
    apply lookup_lt_Some in Hj. lia.
Qed.

(** The pieces of the query from segment [off] on. *)
Lemma query_pieces {V} (values : list V) (segments : list string) off :
  let n := min (length segments) (length values - off) in
  String.concat ""
    (concat
       (imap (λ i segment,
                segment
                  :: match fst <$> imap (λ i v, (binding_name i, v)) values
                                     !! (off + i) with
                     | Some v => if String.eqb v "" then [] else ["$" +:+ v]
                     | None => []
                     end) segments))
  = String.concat ""
      (zip_with (λ segment i, segment +:+ placeholder i)
         (take n segments) (seq off n))
    +:+ String.concat "" (drop n segments).
Proof.
  revert off. induction segments as [|segment segments IH]; intros off n.
  - done.
  - rewrite imap_cons. rewrite concat_cons, Nat.add_0_r.
    rewrite <- app_comm_cons, concat_empty_sep_cons, concat_empty_sep_app.
    rewrite (imap_ext _ (λ i segment,
               segment
                 :: match fst <$> imap (λ i v, (binding_name i, v)) values
                                    !! (S off + i) with
                    | Some v => if String.eqb v "" then [] else ["$" +:+ v]
                    | None => []
                    end)).
    2:{ intros i x _. unfold compose. by rewrite Nat.add_succ_r. }
    rewrite (IH (S off)). rewrite list_lookup_imap.
    destruct (values !! off) as [v|] eqn:Hv.
    + apply lookup_lt_Some in Hv as Hlt.
      assert (n = S (min (length segments) (length values - S off))) as ->.
      { unfold n. cbn [length]. lia. }
      cbn [fmap option_fmap option_map fst take seq zip_with drop].
      change (String.eqb (binding_name off) "") with false. cbv iota.
      rewrite !concat_empty_sep_cons. unfold placeholder.
      change (String.concat "" []) with "".
      by rewrite string_app_nil_r, !string_app_assoc.
    + apply lookup_ge_None in Hv.
      assert (n = 0%nat) as -> by (unfold n; cbn [length]; lia).
      replace (length values - S off)%nat with 0%nat by lia.
      rewrite Nat.min_0_r.
      cbn [fmap option_fmap option_map fst take seq zip_with drop].
      rewrite !concat_empty_sep_cons. done.
Qed.

(** X16.  For a list of segments, the query text is each of the first [n]
    segments followed by its placeholder, where [n] is the smaller of
    the number of segments and the number of values, and then the
    remaining segments as they are.  So a segment past the last value
    gets no placeholder, and a value past the last segment is bound but
    not referred to. *)
Theorem surrealql_query_interleaves_placeholders
    {V : Type} (segments : list string) (values : list V) :
  let n := min (length segments) (length values) in
  query (surrealql (RawSegments segments) values)
  = String.concat ""
      (zip_with (λ segment i, segment +:+ placeholder i)
         (take n segments) (seq 0 n))
    +:+ String.concat "" (drop n segments).
Proof.
  intros n. pose proof (query_pieces values segments 0) as H.
  simpl in H. rewrite Nat.sub_0_r in H. exact H.
Qed.

(** X17.  The query text is built from [query_raw] and the number of
    values alone: calls that differ only in what the values are, even in
    their type, produce the same text.  A plain string is passed on as
    it is. *)
Theorem surrealql_query_ignores_what_the_values_are
    {V W : Type} (query_raw : QueryRaw) (values : list V) (values' : list W) :
  length values = length values' →
  query (surrealql query_raw values) = query (surrealql query_raw values')
  ∧ ∀ s, query (surrealql (RawString s) values) = s.
Proof.
  intros Hlen. split; [|done].
  destruct query_raw as [s|segments]; [done|].
  pose proof (query_pieces values segments 0) as H.
  pose proof (query_pieces values' segments 0) as H'.
  simpl in H, H'. unfold surrealql. simpl. rewrite H, H'.
  by rewrite Hlen.
Qed.

End QueryBuilder.

(** * The model at work: instances of the theorems above *)






Lemma session_reachable (ids : nat → json) (es : list Event) (s : State) :
  run ids es (init all_hooks) = Some s →
  reachable ids (session ids es).
Proof. intros H. exists all_hooks, es. unfold session. by rewrite H. Qed.





(** An instance of C8: [close(1000)] on a freshly constructed object. *)
Lemma close_without_transport_never_returns_witness :
  let s := init all_hooks in
  reachable decimal_ids s
  ∧ ws s = None
  ∧ out (snd (close 1000 s)) = [HookInvoked HClose]
  ∧ ∀ es s2,
      run decimal_ids es (snd (close 1000 s)) = Some s2 →
      promises s2 !! 0%nat = Some Pending
      ∧ promises s2 !! 1%nat = Some Pending.
Proof.
  intros s.
  assert (reachable decimal_ids s) as Hr by apply reachable_init.
  split; [exact Hr|]. split; [reflexivity|].
  destruct (close_without_transport_never_returns decimal_ids s 1000 Hr
              eq_refl)
    as (_ & Hout & _ & _ & _ & Hnever).
  split; [exact Hout|].
  intros es s2 Hrun. destruct (Hnever es s2 Hrun) as (Hp & _ & Hret).
  split; assumption.
Defined.


(** An instance of C10: an error after the handshake succeeded. *)
Lemma error_after_settling_is_silent_witness :
  let s := session decimal_ids [CallOpen; WsOpen 0] in
  let a := mkAttempt true 2 in
  reachable decimal_ids s
  ∧ attempts s !! 0%nat = Some a
  ∧ settled s (attempt_ready a) = true
  ∧ status (on_error 0 a s) = CLOSED
  ∧ out (on_error 0 a s) = out s
  ∧ promises (on_error 0 a s) = promises s.
Proof.
  intros s a.
  assert (reachable decimal_ids s) as Hr.
  { eapply session_reachable. vm_compute. reflexivity. }
  assert (attempts s !! 0%nat = Some a) as Ha by (vm_compute; reflexivity).
  assert (settled s (attempt_ready a) = true) as Hs
    by (vm_compute; reflexivity).
  split_and!; [exact Hr|exact Ha|exact Hs|..];
    destruct (error_after_settling_is_silent decimal_ids s 0%nat a Hr Ha)
      as (_ & Hst & Hsettled & _);
    destruct (Hsettled Hs) as (_ & Hout & Hpr & _); assumption.
Defined.

(** ** Instances of the further properties *)

Lemma request_registered_at_close_never_settles_witness :
  let s := session decimal_ids
             [CallOpen; WsOpen 0; CallSend "ping" []; Resume 1] in
  let es := [TimerFires 0; WsOpen 1; WsMessage 1 (reply_to (JStr "1"))] in
  let s' := session decimal_ids
              ([CallOpen; WsOpen 0; CallSend "ping" []; Resume 1]
               ++ WsClose 0 :: es) in
  reachable decimal_ids s
  ∧ is_Some (attempts s !! 0%nat)
  ∧ queue s !! "1" = Some 3%nat
  ∧ run decimal_ids (WsClose 0 :: es) s = Some s'
  ∧ promises s' !! 3%nat = Some Pending.
Proof.
  intros s es s'.
  assert (reachable decimal_ids s) as Hr.
  { eapply session_reachable. vm_compute. reflexivity. }
  assert (is_Some (attempts s !! 0%nat)) as Hw.
  { eexists. vm_compute. reflexivity. }
  assert (queue s !! "1" = Some 3%nat) as Hk by (vm_compute; reflexivity).
  assert (run decimal_ids (WsClose 0 :: es) s = Some s') as Hrun
    by (vm_compute; reflexivity).
  split; [exact Hr|]. split; [exact Hw|]. split; [exact Hk|].
  split; [exact Hrun|].
  destruct (request_registered_at_close_never_settles decimal_ids s
              0%nat "1" 3%nat Hr Hw Hk) as [_ Hnever].
  exact (proj1 (Hnever es s' Hrun)).
Defined.

Lemma close_overtaken_by_the_next_close_never_returns_witness :
  let s := session decimal_ids [CallOpen; WsOpen 0] in
  let s2 := session decimal_ids
              [CallOpen; WsOpen 0; CallClose 1000; CallOpen] in
  let s3 := session decimal_ids
              [CallOpen; WsOpen 0; CallClose 1000; CallOpen;
               WsClose 0; WsClose 1] in
  reachable decimal_ids s
  ∧ runs_close CallOpen = true
  ∧ step decimal_ids CallOpen (snd (close 1000 s)) = Some s2
  ∧ run decimal_ids [WsClose 0; WsClose 1] s2 = Some s3
  ∧ promises s3 !! length (promises s) = Some Pending
  ∧ promises s3 !! fst (close 1000 s) = Some Pending.
Proof.
  intros s s2 s3.
  assert (reachable decimal_ids s) as Hr.
  { eapply session_reachable. vm_compute. reflexivity. }
  assert (step decimal_ids CallOpen (snd (close 1000 s)) = Some s2) as He
    by (vm_compute; reflexivity).
  assert (run decimal_ids [WsClose 0; WsClose 1] s2 = Some s3) as Hrun
    by (vm_compute; reflexivity).
  split; [exact Hr|]. split; [reflexivity|]. split; [exact He|].
  split; [exact Hrun|].
  destruct (close_overtaken_by_the_next_close_never_returns decimal_ids
              s s2 1000 CallOpen Hr eq_refl He) as (_ & _ & _ & Hnever).
  destruct (Hnever [WsClose 0; WsClose 1] s3 Hrun) as (Hp & _ & Hret).
  split; [exact Hp|exact Hret].
Defined.

Lemma close_returns_once_a_transport_closes_witness :
  let s := session decimal_ids [CallOpen; WsOpen 0] in
  ws s = Some 0%nat
  ∧ is_Some (attempts s !! 0%nat)
  ∧ out (snd (close 1000 s))
    = out s ++ [WsCloseRequested 0 1000 (Some "CLOSE_NORMAL");
                HookInvoked HClose]
  ∧ ∃ s2 s3,
      step decimal_ids (WsClose 0) (snd (close 1000 s)) = Some s2
      ∧ step decimal_ids (Resume (length (tasks s))) s2 = Some s3
      ∧ promises s3 !! fst (close 1000 s) = Some (Fulfilled None).
Proof.
  intros s.
  assert (ws s = Some 0%nat) as Hws by (vm_compute; reflexivity).
  assert (is_Some (attempts s !! 0%nat)) as Hw.
  { eexists. vm_compute. reflexivity. }
  split; [exact Hws|]. split; [exact Hw|].
  destruct (close_returns_once_a_transport_closes decimal_ids s 1000
              0%nat 0%nat Hws Hw)
    as (Hout & _ & s2 & s3 & He2 & _ & _ & He3 & Hret & _).
  split; [exact Hout|]. exists s2, s3. repeat split; assumption.
Defined.

Lemma scheduled_reconnect_is_never_cancelled_witness :
  let s := session decimal_ids [CallOpen; WsOpen 0; WsClose 0] in
  let es := [CallClose 1000; CallSend "ping" []] in
  let s' := session decimal_ids
              [CallOpen; WsOpen 0; WsClose 0;
               CallClose 1000; CallSend "ping" []] in
  run decimal_ids es s = Some s'
  ∧ forallb (λ e, negb (timer_fires e)) es = true
  ∧ timers s !! 0%nat = Some 2500
  ∧ timers s' !! 0%nat = Some 2500
  ∧ ∃ s'', step decimal_ids (TimerFires 0) s' = Some s''
           ∧ ws s'' = Some (length (attempts s')).
Proof.
  intros s es s'.
  assert (run decimal_ids es s = Some s') as Hrun
    by (vm_compute; reflexivity).
  assert (timers s !! 0%nat = Some 2500) as Hi by (vm_compute; reflexivity).
  split; [exact Hrun|]. split; [reflexivity|]. split; [exact Hi|].
  destruct (scheduled_reconnect_is_never_cancelled decimal_ids es s s'
              0%nat 2500 Hrun eq_refl Hi)
    as (Hi' & s'' & He & _ & Hws & _).
  split; [exact Hi'|]. exists s''. split; assumption.
Defined.

Lemma transport_failing_before_it_opens_is_not_retried_witness :
  let s := session decimal_ids [CallOpen; WsOpen 0; WsClose 0] in
  let s1 := session decimal_ids
              [CallOpen; WsOpen 0; WsClose 0; TimerFires 0] in
  runs_open (TimerFires 0) = true
  ∧ step decimal_ids (TimerFires 0) s = Some s1
  ∧ status s1 = CLOSED
  ∧ ∃ s2 s3,
      step decimal_ids (WsError (length (attempts s))) s1 = Some s2
      ∧ step decimal_ids (WsClose (length (attempts s))) s2 = Some s3
      ∧ status s3 = CLOSED
      ∧ timers s3 = timers s1.
Proof.
  intros s s1.
  assert (step decimal_ids (TimerFires 0) s = Some s1) as He
    by (vm_compute; reflexivity).
  split; [reflexivity|]. split; [exact He|].
  destruct (transport_failing_before_it_opens_is_not_retried decimal_ids
              s s1 (TimerFires 0) eq_refl He)
    as (Hst & _ & _ & s2 & s3 & He2 & He3 & _ & Hst3 & Hti3 & _).
  split; [exact Hst|]. exists s2, s3. repeat split; assumption.
Defined.

Lemma send_is_rejected_when_the_attempt_fails_witness :
  let s := session decimal_ids [CallOpen] in
  let a := mkAttempt false 2 in
  reachable decimal_ids s
  ∧ attempts s !! 0%nat = Some a
  ∧ resolved a = false
  ∧ ready s = Some (attempt_ready a)
  ∧ ∃ s2 s3,
      step decimal_ids (WsError 0) (snd (send "ping" [] s)) = Some s2
      ∧ step decimal_ids (Resume (length (tasks s))) s2 = Some s3
      ∧ promises s3 !! fst (send "ping" [] s) = Some Rejected
      ∧ queue s3 = queue s.
Proof.
  intros s a.
  assert (reachable decimal_ids s) as Hr.
  { eapply session_reachable. vm_compute. reflexivity. }
  assert (attempts s !! 0%nat = Some a) as Ha by (vm_compute; reflexivity).
  assert (ready s = Some (attempt_ready a)) as Hre
    by (vm_compute; reflexivity).
  split; [exact Hr|]. split; [exact Ha|]. split; [reflexivity|].
  split; [exact Hre|].
  destruct (send_is_rejected_when_the_attempt_fails decimal_ids s 0%nat a
              "ping" [] Hr Ha eq_refl Hre)
    as (_ & s2 & s3 & He2 & He3 & Hret & Hqu & _).
  exists s2, s3. repeat split; assumption.
Defined.




Lemma open_event_calls_the_hook_each_time_and_settles_ready_once_witness :
  let s := session decimal_ids [CallOpen; WsError 0] in
  let a := mkAttempt true 2 in
  reachable decimal_ids s
  ∧ attempts s !! 0%nat = Some a
  ∧ promises s !! 2%nat = Some Rejected
  ∧ ∃ s1 s2,
      step decimal_ids (WsOpen 0) s = Some s1
      ∧ step decimal_ids (WsOpen 0) s1 = Some s2
      ∧ status s1 = OPEN
      ∧ promises s1 !! 2%nat = Some Rejected
      ∧ promises s2 = promises s1.
Proof.
  intros s a.
  assert (reachable decimal_ids s) as Hr.
  { eapply session_reachable. vm_compute. reflexivity. }
  assert (attempts s !! 0%nat = Some a) as Ha by (vm_compute; reflexivity).
  assert (promises s !! 2%nat = Some Rejected) as Hp
    by (vm_compute; reflexivity).
  split; [exact Hr|]. split; [exact Ha|]. split; [exact Hp|].
  destruct (open_event_calls_the_hook_each_time_and_settles_ready_once
              decimal_ids s 0%nat a Hr Ha)
    as (s1 & s2 & He1 & He2 & Hst & _ & _ & Hrej & _ & _ & Hps).
  exists s1, s2. split_and!; try assumption. exact (Hrej Hp).
Defined.

Lemma status_tells_whether_a_transport_or_a_timer_exists_witness :
  let s := session decimal_ids [CallOpen; WsOpen 0; WsClose 0] in
  reachable decimal_ids s
  ∧ status s = RECONNECTING
  ∧ timers s ≠ []
  ∧ ∃ w, ws s = Some w ∧ is_Some (attempts s !! w).
Proof.
  intros s.
  assert (reachable decimal_ids s) as Hr.
  { eapply session_reachable. vm_compute. reflexivity. }
  assert (status s = RECONNECTING) as Hst by (vm_compute; reflexivity).
  split; [exact Hr|]. split; [exact Hst|].
  destruct (status_tells_whether_a_transport_or_a_timer_exists decimal_ids
              s Hr) as (Htr & Hti & _).
  split; [exact (Hti Hst)|]. apply Htr. rewrite Hst. discriminate.
Defined.

Lemma registered_entries_are_never_empty_and_are_pending_witness :
  let s := session decimal_ids
             [CallOpen; WsOpen 0; CallSend "ping" []; Resume 1;
              WsMessage 0 (notification "q" 1)] in
  reachable decimal_ids s
  ∧ queue s !! "1" = Some 3%nat
  ∧ promises s !! 3%nat = Some Pending
  ∧ ∀ q l, unprocessedLiveResponses s !! q = Some l → l ≠ [].
Proof.
  intros s.
  assert (reachable decimal_ids s) as Hr.
  { eapply session_reachable. vm_compute. reflexivity. }
  assert (queue s !! "1" = Some 3%nat) as Hk by (vm_compute; reflexivity).
  split; [exact Hr|]. split; [exact Hk|].
  destruct (registered_entries_are_never_empty_and_are_pending decimal_ids
              s Hr) as (_ & Hbu & Hqu & _).
  split; [exact (proj1 (Hqu "1" 3%nat Hk))|exact Hbu].
Defined.

Lemma send_while_reconnecting_is_written_to_the_closed_transport_witness :
  let s := session decimal_ids [CallOpen; WsOpen 0] in
  reachable decimal_ids s
  ∧ ws s = Some 0%nat
  ∧ status s ≠ CLOSED
  ∧ ready s = Some 2%nat
  ∧ promises s !! 2%nat = Some (Fulfilled None)
  ∧ ∃ s3,
      run decimal_ids
        [WsClose 0; CallSend "ping" []; Resume (length (tasks s))] s
      = Some s3
      ∧ status s3 = RECONNECTING
      ∧ out s3
        = out (on_close s)
          ++ [WsSent 0 (request (decimal_ids (id_calls s)) "ping" [])].
Proof.
  intros s.
  assert (reachable decimal_ids s) as Hr.
  { eapply session_reachable. vm_compute. reflexivity. }
  assert (ws s = Some 0%nat) as Hws by (vm_compute; reflexivity).
  assert (status s ≠ CLOSED) as Hst by (vm_compute; discriminate).
  assert (ready s = Some 2%nat) as Hre by (vm_compute; reflexivity).
  assert (promises s !! 2%nat = Some (Fulfilled None)) as Hp
    by (vm_compute; reflexivity).
  split; [exact Hr|]. split; [exact Hws|]. split; [exact Hst|].
  split; [exact Hre|]. split; [exact Hp|].
  destruct (send_while_reconnecting_is_written_to_the_closed_transport
              decimal_ids s 0%nat 2%nat None "ping" [] Hr Hws Hst Hre Hp)
    as (s3 & Hrun & Hst3 & _ & Hout & _).
  exists s3. repeat split; assumption.
Defined.

Lemma surrealql_query_ignores_what_the_values_are_witness :
  let segments := RawSegments ["SELECT * FROM "; " WHERE a = "; ""] in
  length [JNum 1; JNum 2] = length [true; false]
  ∧ query (surrealql segments [JNum 1; JNum 2])
    = query (surrealql segments [true; false]).
Proof.
  intros segments. split; [reflexivity|].
  exact (proj1 (surrealql_query_ignores_what_the_values_are segments
                  [JNum 1; JNum 2] [true; false] eq_refl)).
Defined.
